(** * A pushdown automaton engine and its stack: model and properties

    The development embeds the TypeScript classes [Stack<T>] and
    [PushdownAutomaton<StackAlphabet,StateAlphabet,InputAlphabet>] of the
    most complete variant of the engine.

    JavaScript objects are references.  A [Stack<T>] object has one private
    field [#stack] holding a reference to an array, and several parts of the
    code depend on who shares which array ([Stack.fromArray] keeps the array
    it is given, [copy] spreads it into a new one, [clear] installs a new
    one).  Arrays and [Stack] objects therefore live in a store, and every
    method is a function on stores.

    There is one store for all arrays and all [Stack] objects.  The type
    parameters of the classes are erased when the program runs, and with
    the stack alphabet and the input alphabet instantiated alike the
    control stack and the input stack can be one object
    ([replaceInput(rawGetStack())]) or two objects on one array.  The
    automaton is therefore modelled over one type of symbols for both
    alphabets; two different alphabets are the instance at their sum. *)

From stdpp Require Import base option list gmap.

Set Default Proof Using "Type".

(** ** JavaScript values of an alphabet *)

(** A value of TypeScript type [T | null | undefined].  The type parameters of
    the classes can be instantiated with types that contain [null] or
    [undefined]; a stack whose element type excludes them holds [Sym]
    values only. *)
Inductive js (T : Type) : Type :=
  | Undefined
  | Null
  | Sym (x : T).
Arguments Undefined {T}.
Arguments Null {T}.
Arguments Sym {T} x.

Global Instance js_inhabited T : Inhabited (js T) := populate Undefined.

(** [v === undefined || v === null] *)
Definition nullish {T} (v : js T) : bool :=
  match v with
  | Sym _ => false
  | _ => true
  end.

(** The operator [a ?? b]. *)
Definition coalesce {T} (a b : js T) : js T :=
  if nullish a then b else a.

(** ** Arrays *)

Module Array.
Section Array.
Context {T : Type}.

(** [array.push(item)] *)
Definition push (array : list (js T)) (item : js T) : list (js T) :=
  array ++ [item].

(** [array.push(...items)] *)
Definition push_spread (array items : list (js T)) : list (js T) :=
  array ++ items.

(** [array[array.length - 1]]: [undefined] when the array is empty, since
    index [-1] is no element. *)
Definition at_last (array : list (js T)) : js T :=
  default Undefined (last array).

(** [array.pop()]: the value returned and the array afterwards. *)
Definition pop (array : list (js T)) : js T * list (js T) :=
  (at_last array, removelast array).
End Array.
End Array.

(** ** The store *)

Definition loc := positive.

Record Store (T : Type) : Type := mkStore {
  arrays : gmap loc (list (js T));   (* array objects *)
  objects : gmap loc loc             (* Stack objects: the field #stack *)
}.
Arguments mkStore {T} _ _.
Arguments arrays {T} _.
Arguments objects {T} _.

Section Store.
Context {T : Type}.

Definition empty_store : Store T := mkStore ∅ ∅.

(** An array literal or a spread: a new array object. *)
Definition alloc_array (st : Store T) (xs : list (js T)) : loc * Store T :=
  let l := fresh (dom (arrays st)) in
  (l, mkStore (<[l := xs]> (arrays st)) (objects st)).

(** Reading and writing the contents of an array object. *)
Definition read_array (st : Store T) (a : loc) : list (js T) :=
  arrays st !!! a.

Definition write_array (st : Store T) (a : loc) (xs : list (js T)) : Store T :=
  mkStore (<[a := xs]> (arrays st)) (objects st).

(** A new Stack object whose field [#stack] is [a]. *)
Definition alloc_object (st : Store T) (a : loc) : loc * Store T :=
  let o := fresh (dom (objects st)) in
  (o, mkStore (arrays st) (<[o := a]> (objects st))).

(** [this.#stack] and [this.#stack = a] *)
Definition field (st : Store T) (this : loc) : loc :=
  objects st !!! this.

Definition set_field (st : Store T) (this a : loc) : Store T :=
  mkStore (arrays st) (<[this := a]> (objects st)).

(** The sequence a Stack object holds, bottom first. *)
Definition elems (st : Store T) (this : loc) : list (js T) :=
  read_array st (field st this).

(** A Stack object and its array are allocated. *)
Definition valid (st : Store T) (this : loc) : Prop :=
  ∃ a, objects st !! this = Some a ∧ is_Some (arrays st !! a).
End Store.

(** ** class Stack<T> *)

(** [StackAction<T>] *)
Inductive StackAction (T : Type) : Type :=
  | DeleteAction
  | PushAction (item : js T)
  | PopAction (default : js T)
  | IgnoreAction
  | ClearAction.
Arguments DeleteAction {T}.
Arguments PushAction {T} item.
Arguments PopAction {T} default.
Arguments IgnoreAction {T}.
Arguments ClearAction {T}.

Module Stack.
Section Stack.
Context {T : Type}.

(** [constructor() { this.#stack = [] }] *)
Definition new (st : Store T) : loc * Store T :=
  let '(a, st) := alloc_array st [] in
  alloc_object st a.

(** [push(item) { this.#stack.push(item) }] *)
Definition push (st : Store T) (this : loc) (item : js T) : Store T :=
  let a := field st this in
  write_array st a (Array.push (read_array st a) item).

(** [pop() { return this.#stack.pop() }] *)
Definition pop (st : Store T) (this : loc) : js T * Store T :=
  let a := field st this in
  let '(item, rest) := Array.pop (read_array st a) in
  (item, write_array st a rest).

(** [head() { let stack = this.#stack; return stack[stack.length - 1] }] *)
Definition head (st : Store T) (this : loc) : js T :=
  Array.at_last (read_array st (field st this)).

(** [delete() { this.#stack.pop() }] *)
Definition delete (st : Store T) (this : loc) : Store T :=
  let a := field st this in
  write_array st a (snd (Array.pop (read_array st a))).

(** [static fromArray(array) { let stack = new Stack(); stack.#stack = array;
    return stack }]: the array itself becomes the storage; the empty array
    of the constructor is dropped. *)
Definition fromArray (st : Store T) (array : loc) : loc * Store T :=
  let '(stack, st) := new st in
  (stack, set_field st stack array).

(** [copy() { return Stack.fromArray([...this.#stack]) }] *)
Definition copy (st : Store T) (this : loc) : loc * Store T :=
  let '(a, st) := alloc_array st (read_array st (field st this)) in
  fromArray st a.

(** [clear() { this.#stack = [] }] *)
Definition clear (st : Store T) (this : loc) : Store T :=
  let '(a, st) := alloc_array st [] in
  set_field st this a.

(** [appendArray(array) { this.#stack.push(...array) }] *)
Definition appendArray (st : Store T) (this : loc) (array : loc) : Store T :=
  let a := field st this in
  write_array st a (Array.push_spread (read_array st a) (read_array st array)).

(** [action(action)]: the chain of comparisons on [action.action]; every
    branch but pop falls through to [return undefined]. *)
Definition action (st : Store T) (this : loc) (action : StackAction T)
  : js T * Store T :=
  match action with
  | DeleteAction => (Undefined, delete st this)
  | PushAction item => (Undefined, push st this item)
  | PopAction default =>
      let '(item, st) := pop st this in
      (coalesce item default, st)
  | ClearAction => (Undefined, clear st this)
  | IgnoreAction => (Undefined, st)
  end.
End Stack.
End Stack.

(** ** The action algebra of the automaton *)

(** ["accept" | "reject"]; the field [#result] is [null] or one of them. *)
Inductive Verdict : Type := accept | reject.

(** [PushdownAutomatonAction<StackAlphabet,StateAlphabet>].  The declared
    type of [stackAction] lists delete, push and ignore; [advance] hands the
    value to [Stack.action], which dispatches on all five, so the field
    carries a [StackAction]. *)
Inductive PushdownAutomatonAction (SA QA : Type) : Type :=
  | ContinueAction (stackAction : StackAction SA) (state : QA)
  | ResolveAction (result : Verdict).
Arguments ContinueAction {SA QA} stackAction state.
Arguments ResolveAction {SA QA} result.

(** [InputAction<T,C>] *)
Inductive InputAction (T C : Type) : Type :=
  | PopInputAction (continue : js T → C)
  | IgnoreInputAction (continue : C).
Arguments PopInputAction {T C} continue.
Arguments IgnoreInputAction {T C} continue.

Definition TransitionFunction (SA QA IA : Type) : Type :=
  QA → js SA → InputAction IA (PushdownAutomatonAction SA QA).

(** The calls the engine makes into the functions its caller supplied: the
    transition function and the continuation of a pop decision. *)
Inductive Event (SA QA IA : Type) : Type :=
  | Query (state : QA) (stackSymbol : js SA)
  | Feed (inputSymbol : js IA).
Arguments Query {SA QA IA} state stackSymbol.
Arguments Feed {SA QA IA} inputSymbol.


(** ** class PushdownAutomaton *)

(** The field [#initialState]. *)
Record InitialState (SA QA : Type) : Type := mkInitialState {
  stackSymbol : js SA;
  state : QA
}.
Arguments mkInitialState {SA QA} _ _.
Arguments stackSymbol {SA QA} _.
Arguments state {SA QA} _.

(** One automaton object together with the store its stacks live in.  The
    fields [p_...] are the private fields [#...] of the class; [trace] is a
    ghost field, the calls made into caller code so far.  [A] is the type of
    the symbols, of the stack alphabet and of the input alphabet. *)
Record World (A QA : Type) : Type := mkWorld {
  store : Store A;
  p_initialState : InitialState A QA;
  p_stack : loc;
  p_state : QA;
  p_transition : TransitionFunction A QA A;
  p_result : option Verdict;
  p_input : loc;
  trace : list (Event A QA A)
}.
Arguments mkWorld {A QA} _ _ _ _ _ _ _ _.
Arguments store {A QA} _.
Arguments p_initialState {A QA} _.
Arguments p_stack {A QA} _.
Arguments p_state {A QA} _.
Arguments p_transition {A QA} _.
Arguments p_result {A QA} _.
Arguments p_input {A QA} _.
Arguments trace {A QA} _.

Section Fields.
Context {A QA : Type}.
Implicit Types w : World A QA.

(** Assignments to the fields.  [#initialState] is assigned by the
    constructor only and has none. *)
Definition set_store w x :=
  mkWorld x (p_initialState w) (p_stack w) (p_state w)
          (p_transition w) (p_result w) (p_input w) (trace w).
Definition set_stack w x :=
  mkWorld (store w) (p_initialState w) x (p_state w)
          (p_transition w) (p_result w) (p_input w) (trace w).
Definition set_state w x :=
  mkWorld (store w) (p_initialState w) (p_stack w) x
          (p_transition w) (p_result w) (p_input w) (trace w).
Definition set_transition w x :=
  mkWorld (store w) (p_initialState w) (p_stack w)
          (p_state w) x (p_result w) (p_input w) (trace w).
Definition set_result w x :=
  mkWorld (store w) (p_initialState w) (p_stack w)
          (p_state w) (p_transition w) x (p_input w) (trace w).
Definition set_input w x :=
  mkWorld (store w) (p_initialState w) (p_stack w)
          (p_state w) (p_transition w) (p_result w) x (trace w).
Definition emit w (e : Event A QA A) :=
  mkWorld (store w) (p_initialState w) (p_stack w)
          (p_state w) (p_transition w) (p_result w) (p_input w)
          (trace w ++ [e]).

(** What the two stacks of the automaton hold, bottom first. *)
Definition stack_contents w : list (js A) := elems (store w) (p_stack w).
Definition input_contents w : list (js A) := elems (store w) (p_input w).

(** The control stack and the input stack are stored in different arrays
    (and so are different objects). *)
Definition disjoint w : Prop :=
  field (store w) (p_stack w) ≠ field (store w) (p_input w).
End Fields.

Module PushdownAutomaton.
Section PushdownAutomaton.
Context {A QA : Type}.
Implicit Types w : World A QA.

(** [constructor(initialState, initialStackSymbol, transition)], run in
    the store as it is when the automaton is created. *)
Definition constructor (st : Store A) (initialState : QA)
    (initialStackSymbol : js A) (transition : TransitionFunction A QA A)
  : World A QA :=
  let '(stack, st) := Stack.new st in
  let st := Stack.push st stack initialStackSymbol in
  let '(input, st) := Stack.new st in
  mkWorld st (mkInitialState initialStackSymbol initialState)
          stack initialState transition None input [].

(** [input(input) { this.#input = Stack.fromArray(input) }] *)
Definition input w (array : loc) : World A QA :=
  let '(stack, st) := Stack.fromArray (store w) array in
  set_input (set_store w st) stack.

(** The first half of [advance]: read the head of the stack, call the
    transition function, and on a pop decision pop the input stack and call
    the continuation.  Returns [action2]. *)
Definition decide w : PushdownAutomatonAction A QA * World A QA :=
  let stackSymbol := Stack.head (store w) (p_stack w) in
  let action1 := p_transition w (p_state w) stackSymbol in
  let w := emit w (Query (p_state w) stackSymbol) in
  match action1 with
  | PopInputAction continue =>
      let '(inputSymbol, st) := Stack.pop (store w) (p_input w) in
      let w := set_store w st in
      (continue inputSymbol, emit w (Feed inputSymbol))
  | IgnoreInputAction continue => (continue, w)
  end.

(** The second half of [advance]: a resolve action sets the result and
    returns; otherwise the state is replaced and the stack action run. *)
Definition perform w (action2 : PushdownAutomatonAction A QA) : World A QA :=
  match action2 with
  | ResolveAction result => set_result w (Some result)
  | ContinueAction stackAction state =>
      let w := set_state w state in
      set_store w (Stack.action (store w) (p_stack w) stackAction).2
  end.

(** [advance()] *)
Definition advance w : World A QA :=
  let '(action2, w) := decide w in
  perform w action2.

(** [reset()] *)
Definition reset w : World A QA :=
  let '(stack, st) := Stack.new (store w) in
  let w := set_stack (set_store w st) stack in
  let w := set_store w
             (Stack.push (store w) (p_stack w)
                         (stackSymbol (p_initialState w))) in
  let w := set_state w (state (p_initialState w)) in
  let w := set_result w None in
  let '(input, st) := Stack.new (store w) in
  set_input (set_store w st) input.

(** Accessors. *)
Definition getResult w : option Verdict := p_result w.
Definition getState w : QA := p_state w.
Definition getTransitionFunction w : TransitionFunction A QA A := p_transition w.
Definition copyRemainingInput w : loc * World A QA :=
  let '(c, st) := Stack.copy (store w) (p_input w) in
  (c, set_store w st).
Definition copyStack w : loc * World A QA :=
  let '(c, st) := Stack.copy (store w) (p_stack w) in
  (c, set_store w st).
Definition getStackHead w : js A := Stack.head (store w) (p_stack w).
Definition getInputHead w : js A := Stack.head (store w) (p_input w).

(** The methods marked as able to invalidate the automaton. *)
Definition rawGetRemainingInput w : loc := p_input w.
Definition rawGetStack w : loc := p_stack w.
Definition overrideState w (state : QA) : World A QA := set_state w state.
Definition overrideTransitionFunction w (transition : TransitionFunction A QA A)
  : World A QA := set_transition w transition.
Definition replaceStack w (stack : loc) : World A QA := set_stack w stack.
Definition replaceInput w (input : loc) : World A QA := set_input w input.
Definition runStackAction w (action : StackAction A) : World A QA :=
  set_store w (Stack.action (store w) (p_stack w) action).2.
Definition runInputAction w (action : StackAction A) : World A QA :=
  set_store w (Stack.action (store w) (p_input w) action).2.
Definition appendInputArray w (input : loc) : World A QA :=
  set_store w (Stack.appendArray (store w) (p_input w) input).
End PushdownAutomaton.
End PushdownAutomaton.

(** ** Observing a step and a run *)

Section Observations.
Context {A QA : Type}.
Implicit Types w : World A QA.

(** The decision the transition function returns in [w], and the action
    the step then acts on. *)
Definition action1 w : InputAction A (PushdownAutomatonAction A QA) :=
  p_transition w (p_state w) (PushdownAutomaton.getStackHead w).

Definition action2 w : PushdownAutomatonAction A QA :=
  (PushdownAutomaton.decide w).1.

(** The stack action the step applies to the control stack, if any. *)
Definition applied w : option (StackAction A) :=
  match action2 w with
  | ContinueAction stackAction _ => Some stackAction
  | ResolveAction _ => None
  end.

(** [n] calls of [advance] in a row. *)
Fixpoint steps (n : nat) w : World A QA :=
  match n with
  | 0 => w
  | S n => steps n (PushdownAutomaton.advance w)
  end.

Definition is_push (a : option (StackAction A)) : bool :=
  match a with Some (PushAction _) => true | _ => false end.

Definition is_delete (a : option (StackAction A)) : bool :=
  match a with Some DeleteAction => true | _ => false end.

Definition is_empty {T} (xs : list T) : bool :=
  match xs with [] => true | _ => false end.

(** How many of the first [n] steps from [w] applied a push, a delete, and
    a delete to a stack that held something. *)
Fixpoint pushes (n : nat) w : nat :=
  match n with
  | 0 => 0
  | S n => (if is_push (applied w) then 1 else 0)
           + pushes n (PushdownAutomaton.advance w)
  end.

Fixpoint deletes (n : nat) w : nat :=
  match n with
  | 0 => 0
  | S n => (if is_delete (applied w) then 1 else 0)
           + deletes n (PushdownAutomaton.advance w)
  end.

Fixpoint effective_deletes (n : nat) w : nat :=
  match n with
  | 0 => 0
  | S n => (if is_delete (applied w) && negb (is_empty (stack_contents w))
            then 1 else 0)
           + effective_deletes n (PushdownAutomaton.advance w)
  end.
End Observations.

Section Calls.
Context {SA QA IA : Type}.

(** The queries among the calls into caller code, and the input symbols
    handed to continuations. *)
Definition queries (tr : list (Event SA QA IA)) : list (QA * js SA) :=
  omap (λ e, match e with Query q s => Some (q, s) | Feed _ => None end) tr.

Definition fed (tr : list (Event SA QA IA)) : list (js IA) :=
  omap (λ e, match e with Feed i => Some i | Query _ _ => None end) tr.

(** A transition function whose continue actions carry delete, push or
    ignore only, as the type [ContinueAction] declares. *)
Definition declared (a : PushdownAutomatonAction SA QA) : Prop :=
  match a with
  | ContinueAction (PopAction _) _ | ContinueAction ClearAction _ => False
  | _ => True
  end.

Definition well_typed (t : TransitionFunction SA QA IA) : Prop :=
  ∀ q s, match t q s with
         | PopInputAction continue => ∀ i, declared (continue i)
         | IgnoreInputAction continue => declared continue
         end.

(** A transition function that reads in every step. *)
Definition always_pops (t : TransitionFunction SA QA IA) : Prop :=
  ∀ q s, ∃ continue, t q s = PopInputAction continue.
End Calls.

(** ** What a caller can do *)

(** The mutating methods of a Stack object. *)
Inductive StackCall (T : Type) : Type :=
  | CallPush (item : js T)
  | CallPop
  | CallDelete
  | CallClear
  | CallAppendArray (array : loc)
  | CallAction (action : StackAction T).
Arguments CallPush {T} item.
Arguments CallPop {T}.
Arguments CallDelete {T}.
Arguments CallClear {T}.
Arguments CallAppendArray {T} array.
Arguments CallAction {T} action.

Definition call {T} (st : Store T) (this : loc) (c : StackCall T) : Store T :=
  match c with
  | CallPush item => Stack.push st this item
  | CallPop => (Stack.pop st this).2
  | CallDelete => Stack.delete st this
  | CallClear => Stack.clear st this
  | CallAppendArray array => Stack.appendArray st this array
  | CallAction action => (Stack.action st this action).2
  end.

Definition calls {T} (st : Store T) (this : loc) (cs : list (StackCall T)) : Store T :=
  foldl (λ st c, call st this c) st cs.

(** Whatever sequence of methods is called on the Stack [this], the Stacks
    [others] hold what they held. *)
Definition untouched {T} (st : Store T) (this : loc) (others : list loc) : Prop :=
  ∀ cs, Forall (λ o, elems (calls st this cs) o = elems st o) others.

(** The operations of the automaton, and what its caller can do to the
    arrays and Stack objects it holds a reference to: create an array, change
    the contents of an array (any sequence of pushes, pops and assignments),
    call a method of a Stack. *)
Inductive Op (A QA : Type) : Type :=
  | op_input (array : loc)
  | op_advance
  | op_reset
  | op_copyRemainingInput
  | op_copyStack
  | op_overrideState (state : QA)
  | op_overrideTransitionFunction (transition : TransitionFunction A QA A)
  | op_replaceStack (stack : loc)
  | op_replaceInput (input : loc)
  | op_runStackAction (action : StackAction A)
  | op_runInputAction (action : StackAction A)
  | op_appendInputArray (array : loc)
  | op_newArray (xs : list (js A))
  | op_writeArray (array : loc) (xs : list (js A))
  | op_call (this : loc) (c : StackCall A).
Arguments op_input {A QA} array.
Arguments op_advance {A QA}.
Arguments op_reset {A QA}.
Arguments op_copyRemainingInput {A QA}.
Arguments op_copyStack {A QA}.
Arguments op_overrideState {A QA} state.
Arguments op_overrideTransitionFunction {A QA} transition.
Arguments op_replaceStack {A QA} stack.
Arguments op_replaceInput {A QA} input.
Arguments op_runStackAction {A QA} action.
Arguments op_runInputAction {A QA} action.
Arguments op_appendInputArray {A QA} array.
Arguments op_newArray {A QA} xs.
Arguments op_writeArray {A QA} array xs.
Arguments op_call {A QA} this c.

Section Run.
Context {A QA : Type}.
Implicit Types w : World A QA.

Definition run_op w (op : Op A QA) : World A QA :=
  match op with
  | op_input array => PushdownAutomaton.input w array
  | op_advance => PushdownAutomaton.advance w
  | op_reset => PushdownAutomaton.reset w
  | op_copyRemainingInput => (PushdownAutomaton.copyRemainingInput w).2
  | op_copyStack => (PushdownAutomaton.copyStack w).2
  | op_overrideState state => PushdownAutomaton.overrideState w state
  | op_overrideTransitionFunction transition =>
      PushdownAutomaton.overrideTransitionFunction w transition
  | op_replaceStack stack => PushdownAutomaton.replaceStack w stack
  | op_replaceInput input => PushdownAutomaton.replaceInput w input
  | op_runStackAction action => PushdownAutomaton.runStackAction w action
  | op_runInputAction action => PushdownAutomaton.runInputAction w action
  | op_appendInputArray array => PushdownAutomaton.appendInputArray w array
  | op_newArray xs => set_store w (alloc_array (store w) xs).2
  | op_writeArray array xs => set_store w (write_array (store w) array xs)
  | op_call this c => set_store w (call (store w) this c)
  end.

Definition run w (ops : list (Op A QA)) : World A QA :=
  foldl run_op w ops.

Definition is_reset (op : Op A QA) : bool :=
  match op with op_reset => true | _ => false end.

(** The two stacks of the automaton are allocated objects. *)
Definition wf w : Prop :=
  valid (store w) (p_stack w) ∧ valid (store w) (p_input w).

(** Allocated, and stored in different arrays. *)
Definition separated w : Prop := wf w ∧ disjoint w.

(** The references an operation is given point to objects that exist. *)
Definition op_ok w (op : Op A QA) : Prop :=
  match op with
  | op_input array => is_Some (arrays (store w) !! array)
  | op_replaceStack stack => valid (store w) stack
  | op_replaceInput input => valid (store w) input
  | _ => True
  end.

(** The automata a caller can get to. *)
Inductive reachable : World A QA → Prop :=
  | reachable_new st s0 z0 t :
      reachable (PushdownAutomaton.constructor st s0 z0 t)
  | reachable_op w op :
      reachable w → op_ok w op → reachable (run_op w op).
End Run.

(** ** Sample automata *)

Module Samples.
(** Reads one symbol and resolves on it: accept on [true], reject on
    anything else, the end of the input included. *)
Definition reader : TransitionFunction bool unit bool :=
  λ _ _, PopInputAction (λ inputSymbol,
    match inputSymbol with
    | Sym true => ResolveAction accept
    | _ => ResolveAction reject
    end).

Definition reader_new : World bool unit :=
  PushdownAutomaton.constructor empty_store tt (Sym false) reader.

(** The array [[false, true]] of the caller. *)
Definition reader_symbols : list (js bool) := [Sym false; Sym true].

Definition reader_array : loc :=
  (alloc_array (store reader_new) reader_symbols).1.

Definition reader_world : World bool unit :=
  PushdownAutomaton.input (run_op reader_new (op_newArray reader_symbols))
                          reader_array.



(** Deletes twice, pushes once, then accepts; never reads input.  The
    state counts the steps. *)
Definition drain : TransitionFunction unit nat unit :=
  λ state _, IgnoreInputAction
    match state with
    | 0 | 1 => ContinueAction DeleteAction (state + 1)
    | 2 => ContinueAction (PushAction (Sym tt)) 3
    | _ => ResolveAction accept
    end.

Definition drain_new : World unit nat :=
  PushdownAutomaton.constructor empty_store 0 (Sym tt) drain.

(** The same automaton given the empty array as input. *)
Definition drain_world : World unit nat :=
  PushdownAutomaton.input (run_op drain_new (op_newArray []))
                          (alloc_array (store drain_new) []).1.

(** An automaton whose control stack has been emptied. *)
Definition emptied_world : World unit nat :=
  PushdownAutomaton.runStackAction drain_world ClearAction.

(** A [Stack<number | null>] holding the single item [null]. *)
Definition null_stack : loc * Store nat :=
  let '(stack, st) := Stack.new empty_store in
  (stack, Stack.push st stack Null).

(** Waits one step, then reads one symbol and resolves on it like the
    reader. *)
Definition waiter : TransitionFunction bool nat bool :=
  λ state _,
    match state with
    | 0 => IgnoreInputAction (ContinueAction IgnoreAction 1)
    | _ => PopInputAction (λ inputSymbol,
             match inputSymbol with
             | Sym true => ResolveAction accept
             | _ => ResolveAction reject
             end)
    end.

Definition waiter_new : World bool nat :=
  PushdownAutomaton.constructor empty_store 0 (Sym false) waiter.

Definition waiter_world : World bool nat :=
  PushdownAutomaton.input (run_op waiter_new (op_newArray reader_symbols))
                          (alloc_array (store waiter_new) reader_symbols).1.

(** Reads in every step and pushes what it read. *)
Definition pusher : TransitionFunction nat unit nat :=
  λ state _, PopInputAction (λ inputSymbol,
    ContinueAction (PushAction inputSymbol) state).

(** Pushes 9 in every step without reading. *)
Definition filler : TransitionFunction nat unit nat :=
  λ state _, IgnoreInputAction (ContinueAction (PushAction (Sym 9)) state).

(** Reads a symbol and pushes 9, in every step. *)
Definition marker : TransitionFunction nat unit nat :=
  λ state _, PopInputAction (λ _,
    ContinueAction (PushAction (Sym 9)) state).
End Samples.

(** ** Beside the engine: [swap] *)

(** [typeof v === "undefined"] *)
Definition is_undefined {T} (v : js T) : bool :=
  match v with
  | Undefined => true
  | _ => false
  end.

Module Unused.
(** [swap]: pop the two top items and push them again, through [pop] and
    [push] alone; [false] when one of the pops returns [undefined]. *)
Definition swap {T} (st : Store T) (this : loc) : bool * Store T :=
  let '(item1, st) := Stack.pop st this in
  if is_undefined item1 then (false, st)
  else
    let '(item2, st) := Stack.pop st this in
    if is_undefined item2 then (false, Stack.push st this item1)
    else
      let st := Stack.push st this item2 in
      let st := Stack.push st this item1 in
      (true, st).
End Unused.

(** ** The earlier draft of the automaton *)

(** The draft has the same [Stack], the same fields, and an [advance] that
    decides acceptance and rejection itself. *)
Module Draft.

(** [interface PushdownAutomatonAction { newState; stackAction }] *)
Record PushdownAutomatonAction (SA QA : Type) : Type := mkAction {
  newState : QA;
  stackAction : StackAction SA
}.
Arguments mkAction {SA QA} _ _.
Arguments newState {SA QA} _.
Arguments stackAction {SA QA} _.

(** [MaybePopInputAction<T,R>]: [{action: "read", continue}] or
    [{action: "ignore", continue}]. *)
Inductive MaybePopInputAction (T R : Type) : Type :=
  | PopInputAction (continue : js T → R)
  | IgnoreInputAction (continue : R).
Arguments PopInputAction {T R} continue.
Arguments IgnoreInputAction {T R} continue.

Definition TransitionFunction (SA QA IA : Type) : Type :=
  QA → js SA → MaybePopInputAction IA (PushdownAutomatonAction SA QA).

Record World (A QA : Type) : Type := mkWorld {
  store : Store A;
  p_initialState : InitialState A QA;
  p_stack : loc;
  p_state : QA;
  p_transition : TransitionFunction A QA A;
  p_result : option Verdict;
  p_input : loc;
  trace : list (Event A QA A)
}.
Arguments mkWorld {A QA} _ _ _ _ _ _ _ _.
Arguments store {A QA} _.
Arguments p_initialState {A QA} _.
Arguments p_stack {A QA} _.
Arguments p_state {A QA} _.
Arguments p_transition {A QA} _.
Arguments p_result {A QA} _.
Arguments p_input {A QA} _.
Arguments trace {A QA} _.

Section Draft.
Context {A QA : Type}.
Implicit Types w : World A QA.

Definition set_store w x :=
  mkWorld x (p_initialState w) (p_stack w) (p_state w)
          (p_transition w) (p_result w) (p_input w) (trace w).
Definition set_result w x :=
  mkWorld (store w) (p_initialState w) (p_stack w)
          (p_state w) (p_transition w) x (p_input w) (trace w).
Definition set_input w x :=
  mkWorld (store w) (p_initialState w) (p_stack w)
          (p_state w) (p_transition w) (p_result w) x (trace w).
Definition emit w (e : Event A QA A) :=
  mkWorld (store w) (p_initialState w) (p_stack w)
          (p_state w) (p_transition w) (p_result w) (p_input w)
          (trace w ++ [e]).

Definition stack_contents w : list (js A) := elems (store w) (p_stack w).
Definition input_contents w : list (js A) := elems (store w) (p_input w).

(** [constructor(initialState, initialStackSymbol, transition)] *)
Definition constructor (st : Store A) (initialState : QA)
    (initialStackSymbol : js A) (transition : TransitionFunction A QA A)
  : World A QA :=
  let '(stack, st) := Stack.new st in
  let st := Stack.push st stack initialStackSymbol in
  let '(input, st) := Stack.new st in
  mkWorld st (mkInitialState initialStackSymbol initialState)
          stack initialState transition None input [].

(** [input(input) { this.#input = Stack.fromArray(input) }] *)
Definition input w (array : loc) : World A QA :=
  let '(stack, st) := Stack.fromArray (store w) array in
  set_input (set_store w st) stack.

(** [advance()]: accept when the head of the stack is [undefined]; on a read
    decision pop the input and reject when that is [undefined]; otherwise run
    the stack action.  The [newState] of the action is not used. *)
Definition advance w : World A QA :=
  let stackSymbol := Stack.head (store w) (p_stack w) in
  if is_undefined stackSymbol then set_result w (Some accept)
  else
    let action1 := p_transition w (p_state w) stackSymbol in
    let w := emit w (Query (p_state w) stackSymbol) in
    match action1 with
    | PopInputAction continue =>
        let '(inputSymbol, st) := Stack.pop (store w) (p_input w) in
        let w := set_store w st in
        if is_undefined inputSymbol then set_result w (Some reject)
        else
          let action2 := continue inputSymbol in
          let w := emit w (Feed inputSymbol) in
          set_store w
            (Stack.action (store w) (p_stack w) (stackAction action2)).2
    | IgnoreInputAction action2 =>
        set_store w
          (Stack.action (store w) (p_stack w) (stackAction action2)).2
    end.

(** [check() { return this.#result }] *)
Definition check w : option Verdict := p_result w.

Fixpoint steps (n : nat) w : World A QA :=
  match n with
  | 0 => w
  | S n => steps n (advance w)
  end.
End Draft.
End Draft.

(** ** More samples *)

Module MoreSamples.
(** A draft automaton that deletes in every step and counts in its actions;
    it never reads. *)
Definition draft_deleter : Draft.TransitionFunction unit nat unit :=
  λ state _, Draft.IgnoreInputAction (Draft.mkAction (state + 1) DeleteAction).

Definition draft_deleter_world : Draft.World unit nat :=
  Draft.constructor empty_store 0 (Sym tt) draft_deleter.

(** A draft automaton that reads in every step and pushes what it read. *)
Definition draft_reader : Draft.TransitionFunction bool nat bool :=
  λ state _, Draft.PopInputAction (λ inputSymbol,
    Draft.mkAction (state + 1) (PushAction inputSymbol)).

Definition draft_reader_world : Draft.World bool nat :=
  Draft.constructor empty_store 0 (Sym true) draft_reader.

(** A stack of numbers holding 1, 2, 3, with 3 on top. *)
Definition numbers : loc * Store nat :=
  let '(stack, st) := Stack.new empty_store in
  (stack, Stack.push (Stack.push (Stack.push st stack (Sym 1)) stack (Sym 2))
                     stack (Sym 3)).

(** A new, empty stack of numbers. *)
Definition no_numbers : loc * Store nat := Stack.new empty_store.

(** A [Stack<number | undefined>] holding 1 and, on top, [undefined]; and
    one holding [undefined] below 1. *)
Definition undefined_on_top : loc * Store nat :=
  let '(stack, st) := Stack.new empty_store in
  (stack, Stack.push (Stack.push st stack (Sym 1)) stack Undefined).

Definition undefined_below_top : loc * Store nat :=
  let '(stack, st) := Stack.new empty_store in
  (stack, Stack.push (Stack.push st stack Undefined) stack (Sym 1)).

(** An array of the caller holding 1 and 2, and the store it is in. *)
Definition shared_array : loc :=
  (alloc_array (@empty_store nat) [Sym 1; Sym 2]).1.

Definition shared_store : Store nat :=
  (alloc_array (@empty_store nat) [Sym 1; Sym 2]).2.

(** Automata over numbers whose control stack is also their input stack,
    after [a.replaceInput(a.rawGetStack())]: on [[1, 2]], reading and pushing
    9 ([marker]) or pushing 9 without reading ([filler]), and on the empty
    stack. *)
Definition shared_marker : World nat unit :=
  let w := PushdownAutomaton.constructor empty_store tt (Sym 1) Samples.marker in
  let w := PushdownAutomaton.runStackAction w (PushAction (Sym 2)) in
  PushdownAutomaton.replaceInput w (PushdownAutomaton.rawGetStack w).

Definition shared_filler : World nat unit :=
  PushdownAutomaton.overrideTransitionFunction shared_marker Samples.filler.

Definition shared_empty : World nat unit :=
  let w := PushdownAutomaton.constructor empty_store tt (Sym 1) Samples.marker in
  let w := PushdownAutomaton.runStackAction w DeleteAction in
  PushdownAutomaton.replaceInput w (PushdownAutomaton.rawGetStack w).

(** Two Stack objects on one array of the caller, [[1, 2, 3]], after
    [a.input(xs); a.replaceStack(a.rawGetRemainingInput()); a.input(xs)]. *)
Definition marker_new : World nat unit :=
  PushdownAutomaton.constructor empty_store tt (Sym 0) Samples.marker.

Definition marker_array : loc :=
  (alloc_array (store marker_new) [Sym 1; Sym 2; Sym 3]).1.

Definition shared_by_two : World nat unit :=
  let w := PushdownAutomaton.input
             (run_op marker_new (op_newArray [Sym 1; Sym 2; Sym 3]))
             marker_array in
  let w := PushdownAutomaton.replaceStack w
             (PushdownAutomaton.rawGetRemainingInput w) in
  PushdownAutomaton.input w marker_array.

(** An automaton over numbers, not shared, with input [[1, 2, 3]]. *)
Definition pusher_new : World nat unit :=
  PushdownAutomaton.constructor empty_store tt (Sym 0) Samples.pusher.

Definition pusher_array : loc :=
  (alloc_array (store pusher_new) [Sym 1; Sym 2; Sym 3]).1.

Definition pusher_world : World nat unit :=
  PushdownAutomaton.input
    (run_op pusher_new (op_newArray [Sym 1; Sym 2; Sym 3])) pusher_array.
End MoreSamples.

(** * Properties *)

(** ** Arrays *)

Section ArrayFacts.
Context {T : Type}.
Implicit Types (xs : list (js T)) (x : js T).

Lemma at_last_nil : Array.at_last (@nil (js T)) = Undefined.
Proof. reflexivity. Qed.

Lemma at_last_snoc xs x : Array.at_last (xs ++ [x]) = x.
Proof. unfold Array.at_last. by rewrite last_snoc. Qed.

Lemma pop_nil : Array.pop (@nil (js T)) = (Undefined, []).
Proof. reflexivity. Qed.

Lemma pop_snoc xs x : Array.pop (xs ++ [x]) = (x, xs).
Proof. unfold Array.pop. by rewrite at_last_snoc, removelast_last. Qed.

Lemma snoc_cases xs : xs = [] ∨ ∃ ys y, xs = ys ++ [y].
Proof.
  destruct (last xs) as [y|] eqn:E.
  - apply last_Some in E as [ys ->]. right. by exists ys, y.
  - apply last_None in E. by left.
Qed.

Lemma length_removelast xs : length (removelast xs) = pred (length xs).
Proof.
  destruct (snoc_cases xs) as [->|(ys & y & ->)]; [done|].
  rewrite removelast_last, length_app. simpl. lia.
Qed.
End ArrayFacts.

(** ** The store *)

Section StoreFacts.
Context {T : Type}.
Implicit Types (st : Store T) (xs : list (js T)) (a o this : loc).

Lemma read_write_eq st a xs : read_array (write_array st a xs) a = xs.
Proof. apply lookup_total_insert_eq. Qed.

Lemma read_write_ne st a b xs :
  a ≠ b → read_array (write_array st a xs) b = read_array st b.
Proof. intros. by apply lookup_total_insert_ne. Qed.

Lemma field_write st a xs this : field (write_array st a xs) this = field st this.
Proof. reflexivity. Qed.

Lemma elems_write_own st this xs :
  elems (write_array st (field st this) xs) this = xs.
Proof. unfold elems. by rewrite field_write, read_write_eq. Qed.

Lemma elems_write_other st a this xs :
  field st this ≠ a → elems (write_array st a xs) this = elems st this.
Proof. intros. unfold elems. rewrite field_write. by apply read_write_ne. Qed.

Lemma field_set_eq st this a : field (set_field st this a) this = a.
Proof. apply lookup_total_insert_eq. Qed.

Lemma field_set_ne st this o a :
  this ≠ o → field (set_field st this a) o = field st o.
Proof. intros. by apply lookup_total_insert_ne. Qed.

Lemma alloc_array_fresh st xs : arrays st !! (alloc_array st xs).1 = None.
Proof. apply (not_elem_of_dom (D:=gset loc)), is_fresh. Qed.

Lemma alloc_object_fresh st a : objects st !! (alloc_object st a).1 = None.
Proof. apply (not_elem_of_dom (D:=gset loc)), is_fresh. Qed.

Lemma read_alloc_new st xs :
  read_array (alloc_array st xs).2 (alloc_array st xs).1 = xs.
Proof. apply lookup_total_insert_eq. Qed.

Lemma read_alloc_old st xs a :
  is_Some (arrays st !! a) →
  read_array (alloc_array st xs).2 a = read_array st a.
Proof.
  intros [ys Ha]. apply lookup_total_insert_ne. intros E.
  pose proof (alloc_array_fresh st xs) as F. simpl in F. congruence.
Qed.

Lemma valid_field st this :
  valid st this → objects st !! this = Some (field st this) ∧
                  is_Some (arrays st !! field st this).
Proof.
  intros (a & Ho & Ha). unfold field.
  by rewrite (lookup_total_correct _ _ _ Ho).
Qed.
End StoreFacts.

(** ** Stack *)

Section StackFacts.
Context {T : Type}.
Implicit Types (st : Store T) (xs : list (js T)) (x d : js T) (this : loc).

Lemma elems_new st : elems (Stack.new st).2 (Stack.new st).1 = [].
Proof.
  unfold Stack.new, elems, read_array, field. simpl.
  by rewrite !lookup_total_insert_eq.
Qed.

Lemma elems_push st this x :
  elems (Stack.push st this x) this = elems st this ++ [x].
Proof. apply elems_write_own. Qed.

Lemma pop_spec st this :
  Stack.pop st this =
    (Array.at_last (elems st this),
     write_array st (field st this) (removelast (elems st this))).
Proof. reflexivity. Qed.

Lemma elems_pop st this :
  elems (Stack.pop st this).2 this = removelast (elems st this).
Proof. rewrite pop_spec. apply elems_write_own. Qed.

Lemma elems_delete st this :
  elems (Stack.delete st this) this = removelast (elems st this).
Proof. apply elems_write_own. Qed.

Lemma elems_clear st this : elems (Stack.clear st this) this = [].
Proof.
  unfold Stack.clear, elems, read_array, field. simpl.
  by rewrite !lookup_total_insert_eq.
Qed.

(** Allocating an empty array is invisible to reads: a location that is
    not allocated reads as the empty array. *)
Lemma read_alloc_nil st a :
  read_array (alloc_array st []).2 a = read_array st a.
Proof.
  unfold read_array. simpl. rewrite lookup_total_insert.
  case_decide as E; [|done]. subst a.
  rewrite lookup_total_alt.
  pose proof (alloc_array_fresh st []) as F. simpl in F. by rewrite F.
Qed.

Lemma field_fromArray st a :
  field (Stack.fromArray st a).2 (Stack.fromArray st a).1 = a.
Proof. unfold Stack.fromArray, Stack.new. simpl. apply field_set_eq. Qed.

Lemma read_fromArray st a b :
  read_array (Stack.fromArray st a).2 b = read_array st b.
Proof. apply read_alloc_nil. Qed.

Lemma elems_fromArray st a :
  elems (Stack.fromArray st a).2 (Stack.fromArray st a).1 = read_array st a.
Proof. unfold elems. by rewrite field_fromArray, read_fromArray. Qed.

Lemma elems_copy st this :
  elems (Stack.copy st this).2 (Stack.copy st this).1 = elems st this.
Proof.
  unfold Stack.copy.
  destruct (alloc_array st (read_array st (field st this))) as [a st1] eqn:E.
  rewrite elems_fromArray.
  change a with (a, st1).1. change st1 with (a, st1).2 at 1.
  rewrite <- E. apply read_alloc_new.
Qed.

(** What [action] returns and leaves behind, by the contents before. *)
Lemma action_returns st this (act : StackAction T) :
  (Stack.action st this act).1 =
    match act with
    | PopAction d => coalesce (Array.at_last (elems st this)) d
    | _ => Undefined
    end.
Proof. by destruct act. Qed.

Lemma elems_action st this (act : StackAction T) :
  elems (Stack.action st this act).2 this =
    match act with
    | DeleteAction | PopAction _ => removelast (elems st this)
    | PushAction x => elems st this ++ [x]
    | IgnoreAction => elems st this
    | ClearAction => []
    end.
Proof.
  destruct act; simpl.
  - apply elems_delete.
  - apply elems_push.
  - apply elems_write_own.
  - done.
  - apply elems_clear.
Qed.
End StackFacts.

(** ** Sharing and separation *)

Section Separation.
Context {T : Type}.
Implicit Types (st : Store T) (xs : list (js T)) (a o this : loc).

Lemma valid_write st a xs o : valid st o → valid (write_array st a xs) o.
Proof.
  intros (b & Ho & Hb). exists b. split; [done|]. simpl.
  rewrite lookup_insert. by case_decide.
Qed.

Lemma valid_alloc_array st xs o : valid st o → valid (alloc_array st xs).2 o.
Proof. apply valid_write. Qed.

Lemma valid_set_field st this a o :
  is_Some (arrays st !! a) → valid st o → valid (set_field st this a) o.
Proof.
  intros Ha (b & Ho & Hb). unfold valid. simpl. rewrite lookup_insert.
  case_decide; [by exists a | by exists b].
Qed.

Lemma valid_set_field_self st this a :
  is_Some (arrays st !! a) → valid (set_field st this a) this.
Proof. intros Ha. exists a. simpl. by rewrite lookup_insert_eq. Qed.

Lemma valid_clear st this o : valid st o → valid (Stack.clear st this) o.
Proof.
  intros H. unfold Stack.clear. simpl.
  apply (valid_set_field (alloc_array st []).2).
  - simpl. by rewrite lookup_insert_eq.
  - by apply valid_alloc_array.
Qed.

Lemma valid_call st this c o : valid st o → valid (call st this c) o.
Proof.
  intros H. destruct c as [x| | | |b|[|x|d| |]]; simpl;
    first [by apply valid_write | by apply valid_clear | done].
Qed.

(** Every mutating method either writes the array of [this] or, for a
    clear, gives [this] a new array. *)
Lemma call_shape st this c :
  (∃ xs, call st this c = write_array st (field st this) xs)
  ∨ call st this c = Stack.clear st this
  ∨ call st this c = st.
Proof.
  destruct c as [x| | | |b|[|x|d| |]]; simpl; eauto.
Qed.

Lemma write_frame st a xs o :
  a ≠ field st o →
  field (write_array st a xs) o = field st o
  ∧ elems (write_array st a xs) o = elems st o.
Proof. intros H. split; [done|]. by apply elems_write_other. Qed.

Lemma clear_frame st this o :
  valid st o → field st this ≠ field st o →
  field (Stack.clear st this) o = field st o
  ∧ elems (Stack.clear st this) o = elems st o
  ∧ field (Stack.clear st this) this ≠ field st o.
Proof.
  intros V Hne.
  assert (this ≠ o) by (intros ->; done).
  destruct (valid_field _ _ V) as [Ho Ha].
  assert (F : (alloc_array st []).1 ≠ field st o).
  { intros E. pose proof (alloc_array_fresh st []) as N.
    rewrite E in N. rewrite N in Ha. by destruct Ha. }
  set (a0 := (alloc_array st []).1) in *.
  assert (C : Stack.clear st this = set_field (write_array st a0 []) this a0)
    by done.
  rewrite C.
  assert (Hf : field (set_field (write_array st a0 []) this a0) o = field st o).
  { rewrite field_set_ne by done. apply field_write. }
  split; [done|]. split.
  - unfold elems. rewrite Hf.
    change (read_array (set_field (write_array st a0 []) this a0) (field st o))
      with (read_array (write_array st a0 []) (field st o)).
    by apply read_write_ne.
  - by rewrite field_set_eq.
Qed.

Lemma call_frame st this c o :
  valid st o → field st this ≠ field st o →
  valid (call st this c) o
  ∧ field (call st this c) this ≠ field (call st this c) o
  ∧ field (call st this c) o = field st o
  ∧ elems (call st this c) o = elems st o.
Proof.
  intros V Hne. split; [by apply valid_call|].
  destruct (call_shape st this c) as [[xs ->]|[->| ->]].
  - destruct (write_frame st (field st this) xs o Hne) as [-> ->].
    by rewrite field_write.
  - destruct (clear_frame st this o V Hne) as (-> & -> & ?). done.
  - done.
Qed.

Lemma calls_frame st this cs o :
  valid st o → field st this ≠ field st o →
  elems (calls st this cs) o = elems st o.
Proof.
  revert st. induction cs as [|c cs IH]; intros st V Hne; [done|].
  change (calls st this (c :: cs)) with (calls (call st this c) this cs).
  destruct (call_frame st this c o V Hne) as (V' & Hne' & _ & <-).
  by apply IH.
Qed.

Lemma untouched_intro st this others :
  Forall (λ o, valid st o ∧ field st this ≠ field st o) others →
  untouched st this others.
Proof.
  intros H cs. eapply Forall_impl; [exact H|].
  intros o [V Hne]. by apply calls_frame.
Qed.

(** A copy is a new Stack on a new array: it holds what the original holds,
    and every Stack that was there keeps its array, which is not the
    copy's. *)
Lemma copy_frame st this :
  let c := (Stack.copy st this).1 in
  let st' := (Stack.copy st this).2 in
  valid st' c ∧ elems st' c = elems st this
  ∧ ∀ o, valid st o →
         valid st' o ∧ field st' o = field st o ∧ elems st' o = elems st o
         ∧ field st' c ≠ field st' o.
Proof.
  intros c st'.
  set (xs := read_array st (field st this)).
  set (a := fresh (dom (arrays st))).
  set (a' := fresh (dom (<[a := xs]> (arrays st)))).
  set (o' := fresh (dom (objects st))).
  assert (Ea : arrays st' = <[a' := []]> (<[a := xs]> (arrays st))) by done.
  assert (Eo : objects st' = <[o' := a]> (<[o' := a']> (objects st))) by done.
  assert (Ec : c = o') by done.
  assert (Na : arrays st !! a = None)
    by apply (not_elem_of_dom (D:=gset loc)), is_fresh.
  assert (Na' : (<[a := xs]> (arrays st)) !! a' = None)
    by apply (not_elem_of_dom (D:=gset loc)), is_fresh.
  assert (No : objects st !! o' = None)
    by apply (not_elem_of_dom (D:=gset loc)), is_fresh.
  assert (Haa' : a' ≠ a).
  { intros E. rewrite E, lookup_insert_eq in Na'. done. }
  assert (Fc : field st' c = a).
  { unfold field. by rewrite Eo, Ec, lookup_total_insert_eq. }
  split; [|split].
  - exists a. rewrite Eo, Ea, Ec, lookup_insert_eq.
    split; [done|]. rewrite lookup_insert_ne by done.
    by rewrite lookup_insert_eq.
  - apply elems_copy.
  - intros o (b & Ho & [ys Hb]).
    assert (o' ≠ o) by (intros E; rewrite E in No; congruence).
    assert (a ≠ b) by (intros E; rewrite E in Na; congruence).
    assert (a' ≠ b).
    { intros E. rewrite E, lookup_insert_ne in Na' by done. congruence. }
    assert (Ho' : objects st' !! o = Some b).
    { rewrite Eo. by rewrite !lookup_insert_ne. }
    assert (Hb' : arrays st' !! b = Some ys).
    { rewrite Ea. by rewrite !lookup_insert_ne. }
    assert (Fo : field st o = b) by (by apply lookup_total_correct).
    assert (Fo' : field st' o = b) by (by apply lookup_total_correct).
    split; [by exists b|]. split; [congruence|]. split; [|congruence].
    unfold elems, read_array. rewrite Fo, Fo'.
    by rewrite (lookup_total_correct _ _ _ Hb), (lookup_total_correct _ _ _ Hb').
Qed.

(** Two copies taken in a row: both hold what the original holds, and the
    three Stacks are on three different arrays. *)
Lemma copy_twice st this :
  valid st this →
  let c1 := (Stack.copy st this).1 in
  let st1 := (Stack.copy st this).2 in
  let c2 := (Stack.copy st1 this).1 in
  let st2 := (Stack.copy st1 this).2 in
  elems st2 this = elems st this
  ∧ elems st2 c1 = elems st this ∧ elems st2 c2 = elems st this
  ∧ untouched st2 c1 [c2; this]
  ∧ untouched st2 c2 [c1; this]
  ∧ untouched st2 this [c1; c2].
Proof.
  intros V c1 st1 c2 st2.
  destruct (copy_frame st this) as (V1 & E1 & F1). fold c1 st1 in V1, E1, F1.
  destruct (F1 this V) as (Vt1 & Ft1 & Et1 & N1).
  destruct (copy_frame st1 this) as (V2 & E2 & F2). fold c2 st2 in V2, E2, F2.
  destruct (F2 this Vt1) as (Vt2 & Ft2 & Et2 & N2).
  destruct (F2 c1 V1) as (V12 & F12 & E12 & N12).
  assert (N1' : field st2 c1 ≠ field st2 this) by congruence.
  split; [congruence|]. split; [congruence|]. split; [congruence|].
  split; [|split]; apply untouched_intro; repeat constructor; try done.
  all: by apply not_eq_sym.
Qed.
End Separation.


(** ** More on separation *)

Section SeparationMore.
Context {T : Type}.
Implicit Types (st : Store T) (xs : list (js T)) (a o this : loc).

(** A call on a Stack leaves a Stack on another array as it is. *)
Lemma call_elems_other st this c o :
  field st this ≠ field st o →
  field (call st this c) o = field st o
  ∧ elems (call st this c) o = elems st o.
Proof.
  intros Hne.
  destruct (call_shape st this c) as [[xs ->]|[->| ->]].
  - by apply write_frame.
  - assert (this ≠ o) by (intros ->; done).
    set (a0 := (alloc_array st []).1).
    assert (C : Stack.clear st this = set_field (write_array st a0 []) this a0)
      by done.
    rewrite C.
    assert (Hf : field (set_field (write_array st a0 []) this a0) o = field st o).
    { rewrite field_set_ne by done. apply field_write. }
    split; [done|]. unfold elems. rewrite Hf.
    change (read_array (alloc_array st []).2 (field st o)
            = read_array st (field st o)).
    apply read_alloc_nil.
  - done.
Qed.

Lemma valid_new st :
  valid (Stack.new st).2 (Stack.new st).1
  ∧ field (Stack.new st).2 (Stack.new st).1 = (alloc_array st []).1
  ∧ objects st !! (Stack.new st).1 = None
  ∧ ∀ o, valid st o →
         valid (Stack.new st).2 o
         ∧ field (Stack.new st).2 o = field st o
         ∧ elems (Stack.new st).2 o = elems st o
         ∧ field (Stack.new st).2 (Stack.new st).1 ≠ field (Stack.new st).2 o.
Proof.
  set (a0 := (alloc_array st []).1).
  set (o0 := (Stack.new st).1).
  assert (Ea : arrays (Stack.new st).2 = <[a0 := []]> (arrays st)) by done.
  assert (Eo : objects (Stack.new st).2 = <[o0 := a0]> (objects st)) by done.
  assert (Na : arrays st !! a0 = None) by apply alloc_array_fresh.
  assert (No : objects st !! o0 = None)
    by apply (alloc_object_fresh (alloc_array st []).2 a0).
  assert (F0 : field (Stack.new st).2 o0 = a0).
  { unfold field. rewrite Eo. apply lookup_total_insert_eq. }
  split; [|split; [done|split; [done|]]].
  - exists a0. rewrite Eo, Ea, !lookup_insert_eq. by split.
  - intros o (b & Ho & [ys Hb]).
    assert (o0 ≠ o) by (intros E; rewrite E in No; congruence).
    assert (a0 ≠ b) by (intros E; rewrite E in Na; congruence).
    assert (Ho' : objects (Stack.new st).2 !! o = Some b).
    { rewrite Eo. by rewrite lookup_insert_ne. }
    assert (Hb' : arrays (Stack.new st).2 !! b = Some ys).
    { rewrite Ea. by rewrite lookup_insert_ne. }
    assert (Fo : field st o = b) by (by apply lookup_total_correct).
    assert (Fo' : field (Stack.new st).2 o = b) by (by apply lookup_total_correct).
    split; [by exists b|]. split; [congruence|]. split; [|congruence].
    unfold elems, read_array. rewrite Fo, Fo'.
    by rewrite (lookup_total_correct _ _ _ Hb), (lookup_total_correct _ _ _ Hb').
Qed.

Lemma valid_fromArray st a :
  (is_Some (arrays st !! a) →
   valid (Stack.fromArray st a).2 (Stack.fromArray st a).1)
  ∧ objects st !! (Stack.fromArray st a).1 = None
  ∧ ∀ o, valid st o →
         valid (Stack.fromArray st a).2 o
         ∧ field (Stack.fromArray st a).2 o = field st o
         ∧ elems (Stack.fromArray st a).2 o = elems st o.
Proof.
  destruct (valid_new st) as (V & _ & No & M).
  set (o0 := (Stack.new st).1) in *. set (st0 := (Stack.new st).2) in *.
  assert (E1 : (Stack.fromArray st a).1 = o0) by done.
  assert (E2 : (Stack.fromArray st a).2 = set_field st0 o0 a) by done.
  rewrite E1, E2. split; [|split; [exact No|]].
  - intros [xs Ha]. apply valid_set_field_self.
    change (is_Some (<[(alloc_array st []).1 := []]> (arrays st) !! a)).
    rewrite lookup_insert. by case_decide.
  - intros o Vo. destruct (M o Vo) as (V' & F' & E' & _).
    assert (Hne : o0 ≠ o).
    { intros N. destruct Vo as (b' & Ho' & _). rewrite N in No. congruence. }
    assert (Ff : field (set_field st0 o0 a) o = field st o).
    { rewrite field_set_ne by done. exact F'. }
    split; [|split; [exact Ff|]].
    + destruct V' as (b & Ho & Hb). exists b. split; [|done].
      change (<[o0 := a]> (objects st0) !! o = Some b).
      by rewrite lookup_insert_ne.
    + etrans; [|exact E']. unfold elems. by rewrite Ff, F'.
Qed.

Lemma valid_calls st this cs o :
  valid st o → valid (calls st this cs) o.
Proof.
  revert st. induction cs as [|c cs IH]; intros st V; [done|].
  apply (IH (call st this c)). by apply valid_call.
Qed.
End SeparationMore.

(** ** One step of the automaton *)

Section StepFacts.
Context {A QA : Type}.
Implicit Types w : World A QA.

Lemma decide_pop w continue :
  action1 w = PopInputAction continue →
  PushdownAutomaton.decide w =
    (continue (PushdownAutomaton.getInputHead w),
     emit (set_store (emit w (Query (p_state w) (PushdownAutomaton.getStackHead w)))
                     (Stack.pop (store w) (p_input w)).2)
          (Feed (PushdownAutomaton.getInputHead w))).
Proof.
  unfold action1, PushdownAutomaton.decide, PushdownAutomaton.getStackHead.
  by intros ->.
Qed.

Lemma decide_ignore w a :
  action1 w = IgnoreInputAction a →
  PushdownAutomaton.decide w =
    (a, emit w (Query (p_state w) (PushdownAutomaton.getStackHead w))).
Proof.
  unfold action1, PushdownAutomaton.decide, PushdownAutomaton.getStackHead.
  by intros ->.
Qed.

(** [decide] assigns no field; it pops the input stack and calls. *)
Lemma decide_frame w :
  let w' := (PushdownAutomaton.decide w).2 in
  p_stack w' = p_stack w ∧
  p_state w' = p_state w ∧ p_result w' = p_result w ∧
  p_transition w' = p_transition w ∧ p_input w' = p_input w ∧
  p_initialState w' = p_initialState w.
Proof.
  destruct (action1 w) as [k|a] eqn:E.
  - by rewrite (decide_pop _ _ E).
  - by rewrite (decide_ignore _ _ E).
Qed.

Lemma decide_store w :
  store (PushdownAutomaton.decide w).2 =
    match action1 w with
    | PopInputAction _ => call (store w) (p_input w) CallPop
    | IgnoreInputAction _ => store w
    end.
Proof.
  destruct (action1 w) as [k|a] eqn:E.
  - by rewrite (decide_pop _ _ E).
  - by rewrite (decide_ignore _ _ E).
Qed.

Lemma decide_fields w o :
  field (store (PushdownAutomaton.decide w).2) o = field (store w) o.
Proof. rewrite decide_store. by destruct (action1 w). Qed.

Lemma decide_input w :
  input_contents (PushdownAutomaton.decide w).2 =
    match action1 w with
    | PopInputAction _ => removelast (input_contents w)
    | IgnoreInputAction _ => input_contents w
    end.
Proof.
  destruct (action1 w) as [k|a] eqn:E.
  - rewrite (decide_pop _ _ E). apply elems_pop.
  - by rewrite (decide_ignore _ _ E).
Qed.

(** The pop of the input leaves a control stack on another array alone. *)
Lemma decide_stack w :
  disjoint w →
  stack_contents (PushdownAutomaton.decide w).2 = stack_contents w.
Proof.
  intros D. unfold stack_contents.
  destruct (decide_frame w) as (-> & _). rewrite decide_store.
  destruct (action1 w); [|done].
  apply call_elems_other. intros E. by apply D.
Qed.

Lemma decide_trace w :
  trace (PushdownAutomaton.decide w).2 =
    trace w ++ Query (p_state w) (PushdownAutomaton.getStackHead w) ::
      match action1 w with
      | PopInputAction _ => [Feed (PushdownAutomaton.getInputHead w)]
      | IgnoreInputAction _ => []
      end.
Proof.
  destruct (action1 w) as [k|a] eqn:E.
  - rewrite (decide_pop _ _ E). simpl. by rewrite <- app_assoc.
  - by rewrite (decide_ignore _ _ E).
Qed.

Lemma advance_eq w :
  PushdownAutomaton.advance w =
    PushdownAutomaton.perform (PushdownAutomaton.decide w).2 (action2 w).
Proof.
  unfold PushdownAutomaton.advance, action2.
  by destruct (PushdownAutomaton.decide w).
Qed.

(** [perform] does not call into caller code and replaces no object. *)
Lemma perform_frame w a :
  let w' := PushdownAutomaton.perform w a in
  trace w' = trace w ∧
  p_input w' = p_input w ∧ p_stack w' = p_stack w ∧
  p_transition w' = p_transition w ∧ p_initialState w' = p_initialState w.
Proof. by destruct a. Qed.

Lemma perform_store w a :
  store (PushdownAutomaton.perform w a) =
    match a with
    | ResolveAction _ => store w
    | ContinueAction act _ => call (store w) (p_stack w) (CallAction act)
    end.
Proof. by destruct a. Qed.

Lemma perform_result w a :
  p_result (PushdownAutomaton.perform w a) =
    match a with
    | ResolveAction r => Some r
    | ContinueAction _ _ => p_result w
    end.
Proof. by destruct a. Qed.

Lemma advance_refs w :
  p_stack (PushdownAutomaton.advance w) = p_stack w
  ∧ p_input (PushdownAutomaton.advance w) = p_input w.
Proof.
  rewrite advance_eq.
  destruct (perform_frame (PushdownAutomaton.decide w).2 (action2 w))
    as (_ & -> & -> & _).
  by destruct (decide_frame w) as (-> & _ & _ & _ & -> & _).
Qed.

Lemma advance_store w :
  store (PushdownAutomaton.advance w) =
    match action2 w with
    | ResolveAction _ => store (PushdownAutomaton.decide w).2
    | ContinueAction act _ =>
        call (store (PushdownAutomaton.decide w).2) (p_stack w) (CallAction act)
    end.
Proof.
  rewrite advance_eq, perform_store.
  by destruct (decide_frame w) as (-> & _).
Qed.

Lemma advance_trace w :
  trace (PushdownAutomaton.advance w) =
    trace w ++ Query (p_state w) (PushdownAutomaton.getStackHead w) ::
      match action1 w with
      | PopInputAction _ => [Feed (PushdownAutomaton.getInputHead w)]
      | IgnoreInputAction _ => []
      end.
Proof.
  rewrite advance_eq.
  destruct (perform_frame (PushdownAutomaton.decide w).2 (action2 w)) as [-> _].
  apply decide_trace.
Qed.

Lemma advance_result w :
  p_result (PushdownAutomaton.advance w) =
    match action2 w with
    | ResolveAction r => Some r
    | ContinueAction _ _ => p_result w
    end.
Proof.
  rewrite advance_eq, perform_result.
  destruct (decide_frame w) as (_ & _ & -> & _). done.
Qed.

Lemma advance_transition w :
  p_transition (PushdownAutomaton.advance w) = p_transition w.
Proof.
  rewrite advance_eq.
  destruct (perform_frame (PushdownAutomaton.decide w).2 (action2 w))
    as (_ & _ & _ & -> & _).
  by destruct (decide_frame w) as (_ & _ & _ & -> & _).
Qed.

Lemma advance_initialState w :
  p_initialState (PushdownAutomaton.advance w) = p_initialState w.
Proof.
  rewrite advance_eq.
  destruct (perform_frame (PushdownAutomaton.decide w).2 (action2 w))
    as (_ & _ & _ & _ & ->).
  by destruct (decide_frame w) as (_ & _ & _ & _ & _ & ->).
Qed.

Lemma advance_state w :
  p_state (PushdownAutomaton.advance w) =
    match action2 w with
    | ResolveAction _ => p_state w
    | ContinueAction _ q => q
    end.
Proof.
  rewrite advance_eq.
  destruct (decide_frame w) as (_ & E & _).
  by destruct (action2 w).
Qed.

(** The control stack after a step, from what it held after the input was
    popped. *)
Lemma advance_stack_after_decide w :
  stack_contents (PushdownAutomaton.advance w) =
    match action2 w with
    | ResolveAction _ => stack_contents (PushdownAutomaton.decide w).2
    | ContinueAction act _ =>
        match act with
        | DeleteAction | PopAction _ =>
            removelast (stack_contents (PushdownAutomaton.decide w).2)
        | PushAction x => stack_contents (PushdownAutomaton.decide w).2 ++ [x]
        | IgnoreAction => stack_contents (PushdownAutomaton.decide w).2
        | ClearAction => []
        end
    end.
Proof.
  unfold stack_contents at 1.
  destruct (advance_refs w) as [-> _]. rewrite advance_store.
  unfold stack_contents. destruct (decide_frame w) as (-> & _).
  destruct (action2 w); [apply elems_action | done].
Qed.

Lemma advance_stack w :
  disjoint w →
  stack_contents (PushdownAutomaton.advance w) =
    match action2 w with
    | ResolveAction _ => stack_contents w
    | ContinueAction act _ =>
        match act with
        | DeleteAction | PopAction _ => removelast (stack_contents w)
        | PushAction x => stack_contents w ++ [x]
        | IgnoreAction => stack_contents w
        | ClearAction => []
        end
    end.
Proof.
  intros D. by rewrite advance_stack_after_decide, decide_stack.
Qed.


Lemma advance_input w :
  disjoint w →
  input_contents (PushdownAutomaton.advance w) =
    match action1 w with
    | PopInputAction _ => removelast (input_contents w)
    | IgnoreInputAction _ => input_contents w
    end.
Proof.
  intros D. unfold input_contents at 1.
  destruct (advance_refs w) as [_ ->]. rewrite advance_store.
  rewrite <- decide_input. unfold input_contents.
  destruct (decide_frame w) as (_ & _ & _ & _ & -> & _).
  destruct (action2 w) as [act q|r]; [|done].
  apply call_elems_other. by rewrite !decide_fields.
Qed.

Lemma queries_app {SA IA} (tr1 tr2 : list (Event SA QA IA)) :
  queries (tr1 ++ tr2) = queries tr1 ++ queries tr2.
Proof. apply omap_app. Qed.

Lemma fed_app {SA IA} (tr1 tr2 : list (Event SA QA IA)) :
  fed (tr1 ++ tr2) = fed tr1 ++ fed tr2.
Proof. apply omap_app. Qed.

Lemma steps_S n w :
  steps (S n) w = PushdownAutomaton.advance (steps n w).
Proof.
  revert w. induction n as [|n IH]; intros w; [done|].
  change (steps (S (S n)) w) with (steps (S n) (PushdownAutomaton.advance w)).
  by rewrite IH.
Qed.
End StepFacts.

(** ** New stacks *)

Section NewStacks.
Context {T : Type}.
Implicit Types (st : Store T) (z : js T) (o : loc).

Lemma push_spec' st this z :
  Stack.push st this z
  = write_array st (field st this) (elems st this ++ [z]).
Proof. reflexivity. Qed.

(** What the constructor and [reset] build: a new stack holding one item,
    then a new empty stack.  Both are new objects on new arrays, different
    from each other, and every Stack that was there is as it was. *)
Lemma two_new st z :
  let o1 := (Stack.new st).1 in
  let st2 := Stack.push (Stack.new st).2 o1 z in
  let o2 := (Stack.new st2).1 in
  let st3 := (Stack.new st2).2 in
  valid st3 o1 ∧ valid st3 o2
  ∧ elems st3 o1 = [z] ∧ elems st3 o2 = []
  ∧ field st3 o1 ≠ field st3 o2
  ∧ objects st !! o1 = None ∧ objects st !! o2 = None
  ∧ arrays st !! field st3 o1 = None ∧ arrays st !! field st3 o2 = None
  ∧ ∀ o, valid st o →
         valid st3 o ∧ field st3 o = field st o ∧ elems st3 o = elems st o
         ∧ field st3 o1 ≠ field st3 o ∧ field st3 o2 ≠ field st3 o.
Proof.
  intros o1 st2 o2 st3.
  destruct (valid_new st) as (V1 & F1 & N1 & M1). fold o1 in V1, F1, N1, M1.
  set (st1 := (Stack.new st).2) in *.
  assert (V12 : valid st2 o1) by (by apply valid_write).
  assert (F12 : field st2 o1 = field st1 o1) by done.
  assert (E12 : elems st2 o1 = [z]).
  { unfold st2. rewrite elems_push. unfold st1, o1. by rewrite elems_new. }
  destruct (valid_new st2) as (V2 & F2 & N2 & M2). fold o2 st3 in V2, F2, N2, M2.
  destruct (M2 o1 V12) as (V13 & F13 & E13 & D13).
  assert (A1 : arrays st !! field st3 o1 = None).
  { rewrite F13, F12, F1. apply alloc_array_fresh. }
  assert (A2 : arrays st !! field st3 o2 = None).
  { rewrite F2. pose proof (alloc_array_fresh st2 []) as N.
    change (<[field st1 o1 := elems st1 o1 ++ [z]]>
              (<[(alloc_array st []).1 := []]> (arrays st))
            !! (alloc_array st2 []).1 = None) in N.
    apply lookup_insert_None in N as [N _].
    by apply lookup_insert_None in N as [N _]. }
  assert (O2 : objects st !! o2 = None).
  { change (<[o1 := (alloc_array st []).1]> (objects st) !! o2 = None) in N2.
    by apply lookup_insert_None in N2 as [N2 _]. }
  split; [done|]. split; [done|]. split; [congruence|].
  split; [unfold st3, o2; apply elems_new|].
  split; [by apply not_eq_sym|]. split; [done|]. split; [done|].
  split; [done|]. split; [done|].
  intros o Vo. destruct (M1 o Vo) as (Vo1 & Fo1 & Eo1 & Do1).
  assert (Vo2 : valid st2 o) by (by apply valid_write).
  assert (Fo2 : field st2 o = field st1 o) by done.
  assert (Eo2 : elems st2 o = elems st1 o).
  { unfold st2. rewrite push_spec'. apply elems_write_other.
    by apply not_eq_sym. }
  destruct (M2 o Vo2) as (Vo3 & Fo3 & Eo3 & Do3).
  split; [done|]. split; [congruence|]. split; [congruence|].
  split; [congruence|]. done.
Qed.
End NewStacks.

(** ** The other operations *)

Section OperationFacts.
Context {A QA : Type}.
Implicit Types w : World A QA.

Lemma input_frame w array :
  let w' := PushdownAutomaton.input w array in
  p_stack w' = p_stack w ∧
  p_state w' = p_state w ∧ p_result w' = p_result w ∧
  p_transition w' = p_transition w ∧ trace w' = trace w ∧
  p_initialState w' = p_initialState w.
Proof.
  unfold PushdownAutomaton.input.
  by destruct (Stack.fromArray (store w) array).
Qed.

(** After [input(array)] the input stack is the array itself. *)
Lemma input_storage w array :
  field (store (PushdownAutomaton.input w array))
        (p_input (PushdownAutomaton.input w array)) = array
  ∧ ∀ a, read_array (store (PushdownAutomaton.input w array)) a
         = read_array (store w) a.
Proof.
  unfold PushdownAutomaton.input.
  pose proof (field_fromArray (store w) array) as F.
  pose proof (read_fromArray (store w) array) as R.
  by destruct (Stack.fromArray (store w) array).
Qed.

(** The input stack is a new object; the Stacks that were there keep their
    arrays. *)
Lemma input_objects w array :
  objects (store w) !! p_input (PushdownAutomaton.input w array) = None
  ∧ (is_Some (arrays (store w) !! array) →
     valid (store (PushdownAutomaton.input w array))
           (p_input (PushdownAutomaton.input w array)))
  ∧ ∀ o, valid (store w) o →
         valid (store (PushdownAutomaton.input w array)) o
         ∧ field (store (PushdownAutomaton.input w array)) o = field (store w) o
         ∧ elems (store (PushdownAutomaton.input w array)) o = elems (store w) o.
Proof.
  destruct (valid_fromArray (store w) array) as (V & N & M).
  unfold PushdownAutomaton.input.
  by destruct (Stack.fromArray (store w) array).
Qed.

Lemma input_input_contents w array :
  input_contents (PushdownAutomaton.input w array)
  = read_array (store w) array.
Proof.
  unfold input_contents, elems.
  destruct (input_storage w array) as [-> R]. apply R.
Qed.

Lemma constructor_unfold (st : Store A) (s0 : QA) (z0 : js A)
    (t : TransitionFunction A QA A) :
  let o1 := (Stack.new st).1 in
  let st2 := Stack.push (Stack.new st).2 o1 z0 in
  PushdownAutomaton.constructor st s0 z0 t
  = mkWorld (Stack.new st2).2 (mkInitialState z0 s0) o1 s0 t None
            (Stack.new st2).1 [].
Proof. reflexivity. Qed.

Lemma constructor_fields (st : Store A) (s0 : QA)
    (z0 : js A) (t : TransitionFunction A QA A) :
  let w := PushdownAutomaton.constructor st s0 z0 t in
  p_state w = s0 ∧ stack_contents w = [z0] ∧ p_result w = None ∧
  input_contents w = [] ∧ p_transition w = t ∧
  p_initialState w = mkInitialState z0 s0 ∧ trace w = [].
Proof.
  intros w. unfold w. rewrite constructor_unfold.
  destruct (two_new st z0) as (_ & _ & Hs & Hi & _).
  by repeat split.
Qed.

Lemma reset_unfold w :
  let o1 := (Stack.new (store w)).1 in
  let st2 := Stack.push (Stack.new (store w)).2 o1
                        (stackSymbol (p_initialState w)) in
  PushdownAutomaton.reset w
  = mkWorld (Stack.new st2).2 (p_initialState w) o1
            (state (p_initialState w)) (p_transition w) None
            (Stack.new st2).1 (trace w).
Proof. reflexivity. Qed.

Lemma reset_fields w :
  let w' := PushdownAutomaton.reset w in
  p_state w' = state (p_initialState w)
  ∧ stack_contents w' = [stackSymbol (p_initialState w)]
  ∧ p_result w' = None ∧ input_contents w' = []
  ∧ p_transition w' = p_transition w
  ∧ p_initialState w' = p_initialState w ∧ trace w' = trace w.
Proof.
  intros w'. unfold w'. rewrite reset_unfold.
  destruct (two_new (store w) (stackSymbol (p_initialState w)))
    as (_ & _ & Hs & Hi & _).
  by repeat split.
Qed.

(** No operation assigns [#initialState]. *)
Lemma run_op_initialState w op :
  p_initialState (run_op w op) = p_initialState w.
Proof.
  destruct op; first [done | apply advance_initialState].
Qed.

Lemma run_initialState w ops :
  p_initialState (run w ops) = p_initialState w.
Proof.
  revert w. induction ops as [|op ops IH]; intros w; [done|].
  change (run w (op :: ops)) with (run (run_op w op) ops).
  by rewrite IH, run_op_initialState.
Qed.

(** The result field after one operation. *)
Lemma run_op_result w op :
  p_result (run_op w op) =
    match op with
    | op_reset => None
    | op_advance =>
        match action2 w with
        | ResolveAction result => Some result
        | ContinueAction _ _ => p_result w
        end
    | _ => p_result w
    end.
Proof.
  destruct op; first [done | apply advance_result].
Qed.

Lemma action2_declared w :
  well_typed (p_transition w) → declared (action2 w).
Proof.
  intros H. specialize (H (p_state w) (PushdownAutomaton.getStackHead w)).
  fold (action1 w) in H. unfold action2.
  destruct (action1 w) as [k|a] eqn:E.
  - rewrite (decide_pop _ _ E). apply H.
  - by rewrite (decide_ignore _ _ E).
Qed.

Lemma effective_deletes_le n w : effective_deletes n w ≤ deletes n w.
Proof.
  revert w. induction n as [|n IH]; intros w; simpl; [lia|].
  specialize (IH (PushdownAutomaton.advance w)).
  destruct (is_delete (applied w)), (is_empty (stack_contents w)); simpl; lia.
Qed.
End OperationFacts.

(** ** The stacks of the automaton are allocated, and where *)

Section Wellformed.
Context {A QA : Type}.
Implicit Types w : World A QA.

Lemma constructor_wf (st : Store A) (s0 : QA) (z0 : js A)
    (t : TransitionFunction A QA A) :
  separated (PushdownAutomaton.constructor st s0 z0 t).
Proof.
  rewrite constructor_unfold.
  destruct (two_new st z0) as (V1 & V2 & _ & _ & D & _).
  by repeat split.
Qed.

Lemma reset_wf w : separated (PushdownAutomaton.reset w).
Proof.
  rewrite reset_unfold.
  destruct (two_new (store w) (stackSymbol (p_initialState w)))
    as (V1 & V2 & _ & _ & D & _).
  by repeat split.
Qed.

Lemma advance_wf w : wf w → wf (PushdownAutomaton.advance w).
Proof.
  intros [Vs Vi]. unfold wf.
  destruct (advance_refs w) as [-> ->]. rewrite advance_store.
  assert (Vs' : valid (store (PushdownAutomaton.decide w).2) (p_stack w)).
  { rewrite decide_store. destruct (action1 w); [by apply valid_call|done]. }
  assert (Vi' : valid (store (PushdownAutomaton.decide w).2) (p_input w)).
  { rewrite decide_store. destruct (action1 w); [by apply valid_call|done]. }
  destruct (action2 w); [|done]. split; by apply valid_call.
Qed.

(** A step keeps the two stacks on different arrays. *)
Lemma advance_separated w :
  separated w → separated (PushdownAutomaton.advance w).
Proof.
  intros [[Vs Vi] D]. split; [by apply advance_wf|].
  unfold disjoint. destruct (advance_refs w) as [-> ->].
  rewrite advance_store.
  assert (Vi' : valid (store (PushdownAutomaton.decide w).2) (p_input w)).
  { rewrite decide_store. destruct (action1 w); [by apply valid_call|done]. }
  assert (D' : field (store (PushdownAutomaton.decide w).2) (p_stack w)
               ≠ field (store (PushdownAutomaton.decide w).2) (p_input w))
    by (by rewrite !decide_fields).
  destruct (action2 w) as [act q|r]; [|done].
  by destruct (call_frame _ (p_stack w) (CallAction act) (p_input w) Vi' D')
    as (_ & ? & _).
Qed.

Lemma steps_separated n w : separated w → separated (steps n w).
Proof.
  revert w. induction n as [|n IH]; intros w H; [done|].
  apply IH. by apply advance_separated.
Qed.

Lemma run_op_wf w op : wf w → op_ok w op → wf (run_op w op).
Proof.
  intros [Vs Vi] Hop. destruct op; simpl in Hop.
  - destruct (input_objects w array) as (_ & V & M).
    destruct (input_frame w array) as (Hp & _).
    change (wf (PushdownAutomaton.input w array)). unfold wf. rewrite Hp.
    split; [by apply M | by apply V].
  - by apply advance_wf.
  - apply reset_wf.
  - split.
    + exact (proj1 (proj2 (proj2 (copy_frame (store w) (p_input w))) _ Vs)).
    + exact (proj1 (proj2 (proj2 (copy_frame (store w) (p_input w))) _ Vi)).
  - split.
    + exact (proj1 (proj2 (proj2 (copy_frame (store w) (p_stack w))) _ Vs)).
    + exact (proj1 (proj2 (proj2 (copy_frame (store w) (p_stack w))) _ Vi)).
  - by split.
  - by split.
  - by split.
  - by split.
  - split.
    + exact (valid_call (store w) (p_stack w) (CallAction action) _ Vs).
    + exact (valid_call (store w) (p_stack w) (CallAction action) _ Vi).
  - split.
    + exact (valid_call (store w) (p_input w) (CallAction action) _ Vs).
    + exact (valid_call (store w) (p_input w) (CallAction action) _ Vi).
  - split.
    + exact (valid_call (store w) (p_input w) (CallAppendArray array) _ Vs).
    + exact (valid_call (store w) (p_input w) (CallAppendArray array) _ Vi).
  - split.
    + exact (valid_alloc_array (store w) xs _ Vs).
    + exact (valid_alloc_array (store w) xs _ Vi).
  - split.
    + exact (valid_write (store w) array xs _ Vs).
    + exact (valid_write (store w) array xs _ Vi).
  - split.
    + exact (valid_call (store w) this c _ Vs).
    + exact (valid_call (store w) this c _ Vi).
Qed.

Lemma reachable_wf w : reachable w → wf w.
Proof.
  induction 1 as [st s0 z0 t|w op _ IH Hop].
  - apply constructor_wf.
  - by apply run_op_wf.
Qed.

(** The arrays behind the stacks that [reset] and the constructor install
    are new; the Stacks that were there keep their arrays. *)
Lemma reset_storage w :
  arrays (store w)
    !! field (store (PushdownAutomaton.reset w))
             (p_stack (PushdownAutomaton.reset w)) = None
  ∧ arrays (store w)
    !! field (store (PushdownAutomaton.reset w))
             (p_input (PushdownAutomaton.reset w)) = None
  ∧ objects (store w) !! p_stack (PushdownAutomaton.reset w) = None
  ∧ objects (store w) !! p_input (PushdownAutomaton.reset w) = None
  ∧ ∀ o, valid (store w) o →
         valid (store (PushdownAutomaton.reset w)) o
         ∧ field (store (PushdownAutomaton.reset w)) o = field (store w) o
         ∧ elems (store (PushdownAutomaton.reset w)) o = elems (store w) o.
Proof.
  rewrite reset_unfold.
  destruct (two_new (store w) (stackSymbol (p_initialState w)))
    as (_ & _ & _ & _ & _ & O1 & O2 & A1 & A2 & M).
  repeat split; try done; by apply M.
Qed.

Lemma constructor_storage (st : Store A) (s0 : QA)
    (z0 : js A) (t : TransitionFunction A QA A) :
  let w := PushdownAutomaton.constructor st s0 z0 t in
  arrays st !! field (store w) (p_stack w) = None
  ∧ arrays st !! field (store w) (p_input w) = None
  ∧ objects st !! p_stack w = None
  ∧ objects st !! p_input w = None
  ∧ ∀ o, valid st o →
         valid (store w) o ∧ field (store w) o = field st o
         ∧ elems (store w) o = elems st o.
Proof.
  intros w. unfold w. rewrite constructor_unfold.
  destruct (two_new st z0) as (_ & _ & _ & _ & _ & O1 & O2 & A1 & A2 & M).
  repeat split; try done; by apply M.
Qed.

(** The size of the control stack along a run of steps: every push adds
    one, every delete of an item removes one. *)
Lemma steps_size n w :
  separated w →
  well_typed (p_transition w) →
  length (stack_contents (steps n w)) + effective_deletes n w
  = length (stack_contents w) + pushes n w.
Proof.
  revert w. induction n as [|n IH]; intros w S H; simpl; [lia|].
  assert (H' : well_typed (p_transition (PushdownAutomaton.advance w)))
    by (by rewrite advance_transition).
  specialize (IH _ (advance_separated _ S) H').
  rewrite (advance_stack w (proj2 S)) in IH.
  pose proof (action2_declared w H) as D.
  unfold applied. destruct (action2 w) as [act q|r]; simpl in *; [|lia].
  destruct act; simpl in *; try done; try lia.
  - rewrite length_removelast in IH.
    destruct (stack_contents w); simpl in *; lia.
  - rewrite length_app in IH. simpl in IH. lia.
Qed.
End Wellformed.

(** ** Steps that do not read *)

Section IgnoreSteps.
Context {A QA : Type}.
Implicit Types w : World A QA.

(** While the decisions are to ignore the input, the input of an automaton
    whose stacks are on different arrays stays as it is and no continuation
    is called. *)
Lemma ignore_steps n w :
  separated w →
  (∀ i, i < n → ∃ a, action1 (steps i w) = IgnoreInputAction a) →
  separated (steps n w)
  ∧ input_contents (steps n w) = input_contents w
  ∧ fed (trace (steps n w)) = fed (trace w).
Proof.
  revert w. induction n as [|n IH]; intros w S H; [done|].
  destruct (H 0) as [a E]; [lia|]. simpl in E.
  destruct (IH (PushdownAutomaton.advance w)) as (S' & Hi & Hf).
  - by apply advance_separated.
  - intros i Hi. apply (H (Datatypes.S i)). lia.
  - split; [exact S'|]. split.
    + etrans; [exact Hi|]. rewrite (advance_input w (proj2 S)). by rewrite E.
    + etrans; [exact Hf|]. rewrite advance_trace, fed_app, E. simpl.
      by rewrite app_nil_r.
Qed.
End IgnoreSteps.

(** * The claims *)

Section Claims.
Context {A QA : Type}.
Implicit Types w : World A QA.

(** C2: on an empty control stack one [advance] does not resolve by itself.
    It calls the transition function exactly once, with the current state
    and [undefined] as the stack symbol, and the result afterwards is set
    only if the action obtained from that decision is a resolve action:
    otherwise the result is what it was. *)
Theorem advance_on_empty_stack w :
  stack_contents w = [] →
  action1 w = p_transition w (p_state w) Undefined
  ∧ queries (trace (PushdownAutomaton.advance w))
    = queries (trace w) ++ [(p_state w, Undefined)]
  ∧ action2 w = match p_transition w (p_state w) Undefined with
                | PopInputAction continue =>
                    continue (PushdownAutomaton.getInputHead w)
                | IgnoreInputAction continue => continue
                end
  ∧ p_result (PushdownAutomaton.advance w)
    = match action2 w with
      | ResolveAction result => Some result
      | ContinueAction _ _ => p_result w
      end.
Proof.
  intros E.
  assert (H : PushdownAutomaton.getStackHead w = Undefined).
  { unfold PushdownAutomaton.getStackHead, Stack.head.
    unfold stack_contents, elems in E. by rewrite E. }
  assert (H1 : action1 w = p_transition w (p_state w) Undefined).
  { unfold action1. by rewrite H. }
  split; [done|]. split; [|split].
  - rewrite advance_trace, queries_app, H. f_equal.
    by destruct (action1 w).
  - rewrite <- H1. unfold action2.
    destruct (action1 w) as [k|a] eqn:E1.
    + by rewrite (decide_pop _ _ E1).
    + by rewrite (decide_ignore _ _ E1).
  - apply advance_result.
Qed.


End Claims.

Section RunClaims.
Context {A QA : Type}.
Implicit Types w : World A QA.

(** C1, amended: after [input(array)] the input stack holds exactly the
    symbols of the array, in the array's order with its last element on top.
    A step that follows with a pop decision hands the last element of the
    array ([undefined] for the empty array) to the continuation; and when the
    input stack does not share its array with the control stack, the same is
    true of the next step with a pop decision after any number of steps that
    ignore the input, and what then remains is the array without its last
    element. *)
Theorem input_then_pop_feeds_last w array :
  let xs := read_array (store w) array in
  let w1 := PushdownAutomaton.input w array in
  input_contents w1 = xs
  ∧ (∀ continue, action1 w1 = PopInputAction continue →
       action2 w1 = continue (Array.at_last xs)
       ∧ fed (trace (PushdownAutomaton.advance w1))
         = fed (trace w) ++ [Array.at_last xs])
  ∧ (separated w1 →
     ∀ n continue,
       (∀ i, i < n → ∃ a, action1 (steps i w1) = IgnoreInputAction a) →
       action1 (steps n w1) = PopInputAction continue →
       input_contents (steps n w1) = xs
       ∧ action2 (steps n w1) = continue (Array.at_last xs)
       ∧ fed (trace (PushdownAutomaton.advance (steps n w1)))
         = fed (trace w) ++ [Array.at_last xs]
       ∧ input_contents (PushdownAutomaton.advance (steps n w1))
         = removelast xs).
Proof.
  intros xs w1.
  assert (C : input_contents w1 = xs) by apply input_input_contents.
  assert (T : trace w1 = trace w).
  { unfold w1. by destruct (input_frame w array) as (_ & _ & _ & _ & -> & _). }
  assert (K : ∀ w' continue, input_contents w' = xs →
            action1 w' = PopInputAction continue →
            action2 w' = continue (Array.at_last xs)
            ∧ fed (trace (PushdownAutomaton.advance w'))
              = fed (trace w') ++ [Array.at_last xs]).
  { intros w' continue C' E.
    assert (H : PushdownAutomaton.getInputHead w' = Array.at_last xs).
    { change (Array.at_last (input_contents w') = Array.at_last xs).
      by rewrite C'. }
    split.
    - unfold action2. by rewrite (decide_pop _ _ E), H.
    - by rewrite advance_trace, fed_app, E, H. }
  split; [done|]. split.
  - intros continue E. destruct (K w1 continue C E) as [H1 H2].
    split; [done|]. by rewrite H2, T.
  - intros S n continue Hign E.
    destruct (ignore_steps n w1 S Hign) as (S' & Hi & Hf).
    rewrite C in Hi. rewrite T in Hf.
    destruct (K (steps n w1) continue Hi E) as [H1 H2].
    split; [done|]. split; [done|]. split; [by rewrite H2, Hf|].
    by rewrite (advance_input _ (proj2 S')), E, Hi.
Qed.

(** C6: whatever was done to an automaton constructed with [(s0, z0, T)],
    [reset()] leaves the state [s0], the control stack [[z0]], no result and
    an empty input stack; the transition function is the one stored just
    before the reset, so a replaced transition function stays replaced. *)
Theorem reset_restores (st : Store A) (s0 : QA) (z0 : js A)
    (t : TransitionFunction A QA A) (ops : list (Op A QA)) :
  let w := run (PushdownAutomaton.constructor st s0 z0 t) ops in
  p_state (PushdownAutomaton.reset w) = s0
  ∧ stack_contents (PushdownAutomaton.reset w) = [z0]
  ∧ p_result (PushdownAutomaton.reset w) = None
  ∧ input_contents (PushdownAutomaton.reset w) = []
  ∧ p_transition (PushdownAutomaton.reset w) = p_transition w
  ∧ ∀ t', p_transition (PushdownAutomaton.reset
            (PushdownAutomaton.overrideTransitionFunction w t')) = t'.
Proof.
  intros w.
  assert (Hi : p_initialState w = mkInitialState z0 s0).
  { unfold w. rewrite run_initialState. apply constructor_fields. }
  destruct (reset_fields w) as (Hq & Hs & Hr & Hin & Ht & _).
  rewrite Hq, Hs, Hr, Hin, Ht, Hi. by repeat split.
Qed.

(** C7, amended: the result field never goes back to absent except by
    [reset()]: a reset clears it, a step whose action is a resolve action
    assigns that action's result (also over a result that is already set),
    and every other step and operation leaves it as it is; so along any
    operations without a reset a result, once set, stays set. *)
Theorem result_set_until_reset w :
  (∀ op, p_result (run_op w op) =
           match op with
           | op_reset => None
           | op_advance =>
               match action2 w with
               | ResolveAction result => Some result
               | ContinueAction _ _ => p_result w
               end
           | _ => p_result w
           end)
  ∧ (∀ ops, Forall (λ op, is_reset op = false) ops →
            is_Some (p_result w) → is_Some (p_result (run w ops))).
Proof.
  split; [apply run_op_result|].
  intros ops. revert w. induction ops as [|op ops IH]; intros w Hops Hw; [done|].
  change (run w (op :: ops)) with (run (run_op w op) ops).
  inversion Hops as [|? ? Hop Hrest]; subst.
  apply IH; [done|]. rewrite run_op_result.
  destruct op; try done. by destruct (action2 w).
Qed.

(** The automaton of C8: a new automaton given a new array holding [xs]. *)
Lemma fresh_input_separated (st : Store A) (s0 : QA) (z0 : js A)
    (t : TransitionFunction A QA A) (xs : list (js A)) :
  let w0 := PushdownAutomaton.constructor st s0 z0 t in
  let array := (alloc_array (store w0) xs).1 in
  let w := PushdownAutomaton.input (run_op w0 (op_newArray xs)) array in
  separated w ∧ stack_contents w = [z0] ∧ input_contents w = xs
  ∧ p_transition w = t.
Proof.
  intros w0 array w. subst w.
  destruct (constructor_wf st s0 z0 t) as [[Vs Vi] D]. fold w0 in Vs, Vi, D.
  destruct (constructor_fields st s0 z0 t) as (_ & Hs & _ & _ & Ht & _).
  fold w0 in Hs, Ht.
  set (w0' := run_op w0 (op_newArray xs)).
  set (w := PushdownAutomaton.input w0' array).
  assert (Vs' : valid (store w0') (p_stack w0'))
    by exact (valid_alloc_array (store w0) xs _ Vs).
  assert (Ha : arrays (store w0') !! array = Some xs)
    by apply lookup_insert_eq.
  assert (Fs : field (store w0') (p_stack w0') = field (store w0) (p_stack w0))
    by done.
  assert (Es : elems (store w0') (p_stack w0') = [z0]).
  { rewrite <- Hs. unfold stack_contents, elems.
    apply (read_alloc_old (store w0) xs).
    by destruct (valid_field _ _ Vs). }
  destruct (input_objects w0' array) as (_ & V & M).
  destruct (input_frame w0' array) as (Hp & _ & _ & Ht' & _).
  destruct (input_storage w0' array) as [F R].
  destruct (M _ Vs') as (Vs'' & Fs'' & Es'').
  fold w in V, Hp, Ht', F, Vs'', Fs'', Es''.
  assert (Hne : field (store w0) (p_stack w0) ≠ array).
  { intros E. destruct (valid_field _ _ Vs) as [_ [ys Hy]].
    pose proof (alloc_array_fresh (store w0) xs) as N.
    fold array in N. rewrite <- E in N. congruence. }
  split; [|split; [|split]].
  - split; [split|].
    + unfold wf. by rewrite Hp.
    + apply V. by eexists.
    + unfold disjoint. rewrite Hp, Fs'', F, Fs. exact Hne.
  - unfold stack_contents. by rewrite Hp, Es''.
  - unfold w. rewrite input_input_contents.
    apply (lookup_total_correct _ _ _ Ha).
  - by rewrite Ht'.
Qed.

(** C8, amended: from a fresh automaton given any input array, under a
    transition function whose continue actions are push, delete or ignore,
    the size of the control stack after [n] steps is 1 plus the number of
    pushes applied minus the number of deletes applied to a stack that held
    an item.  A delete applied to the empty stack does nothing and is not
    counted. *)
Theorem stack_size_after_steps (st : Store A) (s0 : QA)
    (z0 : js A) (t : TransitionFunction A QA A) (xs : list (js A)) (n : nat) :
  well_typed t →
  let w0 := PushdownAutomaton.constructor st s0 z0 t in
  let w := PushdownAutomaton.input (run_op w0 (op_newArray xs))
                                   (alloc_array (store w0) xs).1 in
  length (stack_contents (steps n w))
  = 1 + pushes n w - effective_deletes n w
  ∧ effective_deletes n w ≤ 1 + pushes n w
  ∧ effective_deletes n w ≤ deletes n w.
Proof.
  intros H w0 w.
  destruct (fresh_input_separated st s0 z0 t xs) as (S & Hs & _ & Ht).
  fold w0 w in S, Hs, Ht.
  assert (W : well_typed (p_transition w)) by (by rewrite Ht).
  pose proof (steps_size n w S W) as E. rewrite Hs in E. simpl in E.
  pose proof (effective_deletes_le n w). lia.
Qed.
End RunClaims.

Section SharingClaims.
Context {A QA : Type}.
Implicit Types w : World A QA.


(** C9: two copies of the control stack taken in a row, with nothing done in
    between, hold the same items as the control stack and as each other, and
    the three are independent: whatever methods are called on one of them,
    the other two hold what they held.  The same for two copies of the
    remaining input. *)
Theorem copies_equal_and_independent w :
  wf w →
  (let c1 := (PushdownAutomaton.copyStack w).1 in
   let w1 := (PushdownAutomaton.copyStack w).2 in
   let c2 := (PushdownAutomaton.copyStack w1).1 in
   let w2 := (PushdownAutomaton.copyStack w1).2 in
   stack_contents w2 = stack_contents w
   ∧ elems (store w2) c1 = stack_contents w
   ∧ elems (store w2) c2 = stack_contents w
   ∧ untouched (store w2) c1 [c2; p_stack w2]
   ∧ untouched (store w2) c2 [c1; p_stack w2]
   ∧ untouched (store w2) (p_stack w2) [c1; c2])
  ∧ (let c1 := (PushdownAutomaton.copyRemainingInput w).1 in
     let w1 := (PushdownAutomaton.copyRemainingInput w).2 in
     let c2 := (PushdownAutomaton.copyRemainingInput w1).1 in
     let w2 := (PushdownAutomaton.copyRemainingInput w1).2 in
     input_contents w2 = input_contents w
     ∧ elems (store w2) c1 = input_contents w
     ∧ elems (store w2) c2 = input_contents w
     ∧ untouched (store w2) c1 [c2; p_input w2]
     ∧ untouched (store w2) c2 [c1; p_input w2]
     ∧ untouched (store w2) (p_input w2) [c1; c2]).
Proof.
  intros [Vs Vi]. split.
  - exact (copy_twice (store w) (p_stack w) Vs).
  - exact (copy_twice (store w) (p_input w) Vi).
Qed.
End SharingClaims.

Section StackClaims.
Context {T : Type}.
Implicit Types (st : Store T) (this : loc) (d x : js T).

(** A pop action on an empty stack returns the default and leaves the
    stack empty. *)
Lemma action_pop_empty st this d :
  elems st this = [] →
  (Stack.action st this (PopAction d)).1 = d
  ∧ elems (Stack.action st this (PopAction d)).2 this = [].
Proof.
  intros E. rewrite action_returns, elems_action, E. done.
Qed.

(** A pop action on a stack whose top item is neither [null] nor
    [undefined] returns that item and removes it. *)
Lemma action_pop_top st this d xs (v : T) :
  elems st this = xs ++ [Sym v] →
  (Stack.action st this (PopAction d)).1 = Sym v
  ∧ elems (Stack.action st this (PopAction d)).2 this = xs.
Proof.
  intros E. rewrite action_returns, elems_action, E.
  by rewrite at_last_snoc, removelast_last.
Qed.

(** A pop action on a stack whose top item is [null] or [undefined]
    removes the item and returns the default. *)
Lemma action_pop_nullish_top st this d xs x :
  elems st this = xs ++ [x] → nullish x = true →
  (Stack.action st this (PopAction d)).1 = d
  ∧ elems (Stack.action st this (PopAction d)).2 this = xs.
Proof.
  intros E N. rewrite action_returns, elems_action, E.
  rewrite at_last_snoc, removelast_last. unfold coalesce. by rewrite N.
Qed.
End StackClaims.

(** C3: the pop action at the stack [[null]] with default [7].  The stack is
    not empty and its top item is [null]; the action removes the item and
    returns [7], the default, where the claim has it return the top item. *)
Theorem action_pop_null_returns_default :
  let '(stack, st) := Samples.null_stack in
  elems st stack = [Null]
  ∧ (Stack.action st stack (PopAction (Sym 7))).1 = Sym 7
  ∧ (Stack.action st stack (PopAction (Sym 7))).1 ≠ Null
  ∧ elems (Stack.action st stack (PopAction (Sym 7))).2 stack = [].
Proof. vm_compute. repeat split; discriminate. Qed.

(** At a sample automaton whose control stack was cleared, the step of C2
    queries with [undefined] and the result stays absent. *)
Lemma advance_on_empty_stack_witness :
  stack_contents Samples.emptied_world = []
  ∧ queries (trace (PushdownAutomaton.advance Samples.emptied_world))
    = [(0, Undefined)]
  ∧ p_result (PushdownAutomaton.advance Samples.emptied_world) = None.
Proof.
  assert (E : stack_contents Samples.emptied_world = []) by (vm_compute; reflexivity).
  destruct (advance_on_empty_stack Samples.emptied_world E) as (_ & Hq & _ & Hr).
  split; [exact E|]. split; [exact Hq | exact Hr].
Defined.

(** The stacks of the sample automata are allocated and on different
    arrays. *)
Lemma reader_world_separated : separated Samples.reader_world.
Proof.
  exact (proj1 (fresh_input_separated empty_store tt (Sym false)
                  Samples.reader Samples.reader_symbols)).
Defined.

Lemma reader_world_wf : wf Samples.reader_world.
Proof. exact (proj1 reader_world_separated). Defined.

Lemma waiter_world_separated : separated Samples.waiter_world.
Proof.
  exact (proj1 (fresh_input_separated empty_store 0 (Sym false)
                  Samples.waiter Samples.reader_symbols)).
Defined.

Lemma drain_world_separated : separated Samples.drain_world.
Proof.
  exact (proj1 (fresh_input_separated empty_store 0 (Sym tt)
                  Samples.drain [])).
Defined.





(** C1 fails as stated: the array [[false, true]] is given as input, and
    the pop step feeds [true], its last element, not [false], its first. *)
Lemma input_first_symbol_not_fed_first :
  input_contents Samples.reader_world = [Sym false; Sym true]
  ∧ fed (trace (PushdownAutomaton.advance Samples.reader_world)) = [Sym true]
  ∧ ¬ (fed (trace (PushdownAutomaton.advance Samples.reader_world))
       = [default Undefined (head Samples.reader_symbols)]).
Proof. vm_compute. repeat split; discriminate. Qed.

(** The waiter ignores the input in its first step and is fed [true], the
    last element of its input array, in its second. *)
Lemma input_then_pop_feeds_last_witness :
  fed (trace (steps 2 Samples.waiter_world)) = [Sym true]
  ∧ input_contents (steps 2 Samples.waiter_world) = [Sym false].
Proof.
  destruct (input_then_pop_feeds_last
    (run_op Samples.waiter_new (op_newArray Samples.reader_symbols))
    (alloc_array (store Samples.waiter_new) Samples.reader_symbols).1)
    as (_ & _ & H).
  destruct (H waiter_world_separated 1
              (λ inputSymbol,
                 match inputSymbol with
                 | Sym true => ResolveAction accept
                 | _ => ResolveAction reject
                 end)) as (_ & _ & Hf & Hi).
  - intros i Hi. assert (i = 0) as -> by lia. eexists. reflexivity.
  - reflexivity.
  - split; [exact Hf | exact Hi].
Defined.

(** C7 fails as stated: the first step of the reader sets the result to
    accept, and the second step changes it to reject. *)
Lemma step_changes_set_result :
  p_result (steps 1 Samples.reader_world) = Some accept
  ∧ p_result (PushdownAutomaton.advance (steps 1 Samples.reader_world))
    = Some reject
  ∧ ¬ (p_result (PushdownAutomaton.advance (steps 1 Samples.reader_world))
       = p_result (steps 1 Samples.reader_world)).
Proof. vm_compute. repeat split; discriminate. Qed.

(** After the first step of the reader the result is set, and it is still
    set after further steps and a state override. *)
Lemma result_set_until_reset_witness :
  is_Some (p_result (run (steps 1 Samples.reader_world)
                         [op_advance; op_overrideState tt; op_advance])).
Proof.
  apply (result_set_until_reset (steps 1 Samples.reader_world)).
  - repeat constructor.
  - vm_compute. eexists. reflexivity.
Defined.

(** The drain automaton continues with delete and push only. *)
Lemma drain_well_typed : well_typed Samples.drain.
Proof. intros [|[|[|q]]] s; exact I. Qed.

(** C8 fails as stated: the drain automaton applies two deletes (the second
    to an empty stack) and one push in three steps; the stack then holds one
    item, where 1 + 1 - 2, bounded below by 0, is 0. *)
Lemma stack_size_formula_fails :
  well_typed (p_transition Samples.drain_world)
  ∧ pushes 3 Samples.drain_world = 1
  ∧ deletes 3 Samples.drain_world = 2
  ∧ length (stack_contents (steps 3 Samples.drain_world)) = 1
  ∧ ¬ (length (stack_contents (steps 3 Samples.drain_world))
       = 1 + pushes 3 Samples.drain_world - deletes 3 Samples.drain_world).
Proof.
  split; [exact drain_well_typed|]. vm_compute. repeat split; discriminate.
Qed.

(** For the drain automaton: one push, one delete of an item, size 1. *)
Lemma stack_size_after_steps_witness :
  length (stack_contents (steps 3 Samples.drain_world)) = 1 + 1 - 1.
Proof.
  pose proof (stack_size_after_steps empty_store 0 (Sym tt) Samples.drain [] 3
                drain_well_typed) as (H & _).
  exact H.
Defined.



(** Two copies of the remaining input of the reader; clearing the first
    leaves the second. *)
Lemma copies_equal_and_independent_witness :
  let c1 := (PushdownAutomaton.copyRemainingInput Samples.reader_world).1 in
  let w1 := (PushdownAutomaton.copyRemainingInput Samples.reader_world).2 in
  let c2 := (PushdownAutomaton.copyRemainingInput w1).1 in
  let w2 := (PushdownAutomaton.copyRemainingInput w1).2 in
  elems (store w2) c1 = [Sym false; Sym true]
  ∧ elems (store (run_op w2 (op_call c1 CallClear))) c2
    = [Sym false; Sym true].
Proof.
  intros c1 w1 c2 w2.
  destruct (copies_equal_and_independent Samples.reader_world reader_world_wf)
    as (_ & _ & H1 & H2 & U & _).
  fold c1 w1 c2 w2 in H1, H2, U.
  split.
  - rewrite H1. vm_compute. reflexivity.
  - pose proof (U [CallClear]) as F. apply Forall_cons_1 in F as [F _].
    etrans; [exact F|]. rewrite H2. vm_compute. reflexivity.
Defined.
(** * Further properties of the code *)

(** ** Stack *)

Section StackMore.
Context {T : Type}.
Implicit Types (st : Store T) (xs : list (js T)) (x d : js T) (this a : loc).

Lemma push_spec st this x :
  Stack.push st this x
  = write_array st (field st this) (elems st this ++ [x]).
Proof. reflexivity. Qed.

(** X1: [pop] undoes [push]: after pushing any item (also [null] or
    [undefined]) the head is that item, [pop] returns it, and the stack holds
    what it held before the push. *)
Theorem push_then_pop st this x :
  Stack.head (Stack.push st this x) this = x
  ∧ (Stack.pop (Stack.push st this x) this).1 = x
  ∧ elems (Stack.pop (Stack.push st this x) this).2 this = elems st this.
Proof.
  assert (E : elems (Stack.push st this x) this = elems st this ++ [x])
    by apply elems_push.
  split; [|split].
  - change (Array.at_last (elems (Stack.push st this x) this) = x).
    by rewrite E, at_last_snoc.
  - rewrite pop_spec. simpl. by rewrite E, at_last_snoc.
  - by rewrite elems_pop, E, removelast_last.
Qed.

(** X2: an exhausted stack does not fail: on the empty stack [head] and
    [pop] return [undefined], and [pop] and [delete] leave it empty. *)
Theorem empty_stack_exhaustion st this :
  elems st this = [] →
  Stack.head st this = Undefined
  ∧ (Stack.pop st this).1 = Undefined
  ∧ elems (Stack.pop st this).2 this = []
  ∧ elems (Stack.delete st this) this = [].
Proof.
  intros E. split; [|split; [|split]].
  - change (Array.at_last (elems st this) = Undefined). by rewrite E.
  - rewrite pop_spec. simpl. by rewrite E.
  - by rewrite elems_pop, E.
  - by rewrite elems_delete, E.
Qed.

Lemma elems_pushes st this xs :
  elems (foldl (λ st x, Stack.push st this x) st xs) this = elems st this ++ xs.
Proof.
  revert st. induction xs as [|x xs IH]; intros st; simpl.
  - by rewrite app_nil_r.
  - by rewrite IH, elems_push, <- app_assoc.
Qed.

(** X3: [appendArray] pushes the items of the array in order: the stack
    then holds its old items followed by the items of the array, as after
    pushing them one by one, so a non-empty array leaves its last item on
    top.  Appending the array the stack is stored in doubles the stack. *)
Theorem appendArray_pushes_in_order st this array :
  elems (Stack.appendArray st this array) this
  = elems st this ++ read_array st array
  ∧ elems (Stack.appendArray st this array) this
    = elems (foldl (λ st x, Stack.push st this x) st (read_array st array)) this
  ∧ (∀ ys y, read_array st array = ys ++ [y] →
             Stack.head (Stack.appendArray st this array) this = y)
  ∧ (array = field st this →
     elems (Stack.appendArray st this array) this = elems st this ++ elems st this).
Proof.
  assert (E : elems (Stack.appendArray st this array) this
              = elems st this ++ read_array st array) by apply elems_write_own.
  split; [done|]. split; [by rewrite elems_pushes|]. split.
  - intros ys y Hy.
    change (Array.at_last (elems (Stack.appendArray st this array) this) = y).
    by rewrite E, Hy, app_assoc, at_last_snoc.
  - intros ->. exact E.
Qed.

(** Calls on a Stack leave alone every allocated array that is not the
    array of that Stack. *)
Lemma call_array_frame st this c a :
  is_Some (arrays st !! a) → field st this ≠ a →
  is_Some (arrays (call st this c) !! a)
  ∧ field (call st this c) this ≠ a
  ∧ read_array (call st this c) a = read_array st a.
Proof.
  intros Ha Hne.
  destruct (call_shape st this c) as [[xs ->]|[->| ->]].
  - split; [|split].
    + simpl. rewrite lookup_insert. by case_decide.
    + by rewrite field_write.
    + by apply read_write_ne.
  - assert (F : (alloc_array st []).1 ≠ a).
    { intros E. pose proof (alloc_array_fresh st []) as N.
      rewrite E in N. rewrite N in Ha. by destruct Ha. }
    set (a0 := (alloc_array st []).1) in *.
    assert (C : Stack.clear st this = set_field (write_array st a0 []) this a0)
      by done.
    rewrite C. split; [|split].
    + simpl. rewrite lookup_insert. by case_decide.
    + by rewrite field_set_eq.
    + change (read_array (write_array st a0 []) a = read_array st a).
      by apply read_write_ne.
  - done.
Qed.

Lemma calls_array_frame st this cs a :
  is_Some (arrays st !! a) → field st this ≠ a →
  read_array (calls st this cs) a = read_array st a.
Proof.
  revert st. induction cs as [|c cs IH]; intros st Ha Hne; [done|].
  change (calls st this (c :: cs)) with (calls (call st this c) this cs).
  destruct (call_array_frame st this c a Ha Hne) as (Ha' & Hne' & <-).
  by apply IH.
Qed.

(** X4: [clear] empties the stack by giving it a new array: the array the
    stack was stored in keeps its items, and nothing that is done to the
    stack afterwards changes that array any more. *)
Theorem clear_leaves_old_array st this :
  is_Some (arrays st !! field st this) →
  elems (Stack.clear st this) this = []
  ∧ read_array (Stack.clear st this) (field st this) = elems st this
  ∧ ∀ cs, read_array (calls (Stack.clear st this) this cs) (field st this)
          = elems st this.
Proof.
  intros Ha.
  assert (F : (alloc_array st []).1 ≠ field st this).
  { intros E. pose proof (alloc_array_fresh st []) as N.
    rewrite E in N. rewrite N in Ha. by destruct Ha. }
  set (a0 := (alloc_array st []).1) in *.
  assert (C : Stack.clear st this = set_field (write_array st a0 []) this a0)
    by done.
  assert (R : read_array (Stack.clear st this) (field st this) = elems st this).
  { rewrite C.
    change (read_array (write_array st a0 []) (field st this) = elems st this).
    by apply read_write_ne. }
  split; [apply elems_clear|]. split; [exact R|].
  intros cs. rewrite <- R. apply calls_array_frame.
  - rewrite C. simpl. rewrite lookup_insert. by case_decide.
  - rewrite C, field_set_eq. done.
Qed.

(** X5: a pop action with a default that is neither [null] nor [undefined]
    never returns [null] or [undefined], whatever the stack holds. *)
Theorem action_pop_never_nullish st this d :
  nullish d = false →
  nullish (Stack.action st this (PopAction d)).1 = false.
Proof.
  intros Hd. rewrite action_returns. unfold coalesce.
  by destruct (nullish (Array.at_last (elems st this))) eqn:E.
Qed.

Lemma call_writes st this (c : StackCall T) :
  c ≠ CallClear → c ≠ CallAction ClearAction →
  call st this c = st
  ∨ ∃ xs, call st this c = write_array st (field st this) xs.
Proof.
  intros Hc Hc'. destruct c as [x| | | |b|[|x|d| |]]; simpl; try done;
    eauto.
Qed.

(** X6: two Stacks made by [fromArray] from one array are two objects on
    the same storage: each holds the items of the array, every push, pop,
    delete or append through the first is seen through the second, and only
    a clear of the first takes it off the shared array, which the second
    keeps. *)
Theorem fromArray_shares_array st array :
  let s1 := (Stack.fromArray st array).1 in
  let st1 := (Stack.fromArray st array).2 in
  let s2 := (Stack.fromArray st1 array).1 in
  let st2 := (Stack.fromArray st1 array).2 in
  s1 ≠ s2
  ∧ elems st2 s1 = read_array st array
  ∧ elems st2 s2 = read_array st array
  ∧ (∀ c, c ≠ CallClear → c ≠ CallAction ClearAction →
          elems (call st2 s1 c) s2 = elems (call st2 s1 c) s1)
  ∧ elems (Stack.clear st2 s1) s1 = []
  ∧ elems (Stack.clear st2 s1) s2 = read_array st array.
Proof.
  intros s1 st1 s2 st2.
  assert (F1 : field st1 s1 = array) by apply field_fromArray.
  assert (F2 : field st2 s2 = array) by apply field_fromArray.
  assert (O1 : is_Some (objects st1 !! s1)).
  { unfold st1, s1, Stack.fromArray, Stack.new. simpl.
    rewrite lookup_insert_eq. by eexists. }
  assert (Hne : s1 ≠ s2).
  { intros E. destruct O1 as [b Hb].
    pose proof (alloc_object_fresh (alloc_array st1 []).2
                  (alloc_array st1 []).1) as N.
    change (objects st1 !! s2 = None) in N. rewrite <- E in N. congruence. }
  assert (F12 : field st2 s1 = array).
  { rewrite <- F1.
    assert (E : st2 = set_field (Stack.new st1).2 s2 array) by done.
    rewrite E, field_set_ne by (intros X; by apply Hne).
    unfold field, Stack.new. simpl.
    rewrite lookup_total_insert_ne; [done|].
    intros X. apply Hne. symmetry. exact X. }
  assert (R2 : ∀ b, read_array st2 b = read_array st b).
  { intros b. unfold st2. rewrite read_fromArray. unfold st1.
    apply read_fromArray. }
  assert (E1 : elems st2 s1 = read_array st array).
  { unfold elems. by rewrite F12, R2. }
  assert (E2 : elems st2 s2 = read_array st array).
  { unfold elems. by rewrite F2, R2. }
  split; [done|]. split; [done|]. split; [done|]. split; [|split].
  - intros c Hc Hc'.
    destruct (call_writes st2 s1 c Hc Hc') as [->|[xs ->]]; [congruence|].
    rewrite elems_write_own.
    rewrite F12, <- F2. apply elems_write_own.
  - apply elems_clear.
  - rewrite <- E2.
    assert (C : Stack.clear st2 s1
                = set_field (alloc_array st2 []).2 s1 (alloc_array st2 []).1)
      by done.
    rewrite C. unfold elems.
    rewrite field_set_ne by done.
    change (field (alloc_array st2 []).2 s2) with (field st2 s2).
    change (read_array (set_field (alloc_array st2 []).2 s1 (alloc_array st2 []).1)
                       (field st2 s2))
      with (read_array (alloc_array st2 []).2 (field st2 s2)).
    apply read_alloc_nil.
Qed.
End StackMore.

(** ** swap *)

Section SwapFacts.
Context {T : Type}.
Implicit Types (st : Store T) (xs : list (js T)) (x : js T) (this : loc).

(** [swap] by the contents of the stack: the first pop, the test, the second
    pop, the test, and the pushes. *)
Lemma swap_unfold st this :
  let xs := elems st this in
  let st1 := write_array st (field st this) (removelast xs) in
  let st2 := write_array st1 (field st this) (removelast (removelast xs)) in
  Unused.swap st this =
    if is_undefined (Array.at_last xs) then (false, st1)
    else if is_undefined (Array.at_last (removelast xs))
         then (false, write_array st2 (field st this)
                        (removelast (removelast xs) ++ [Array.at_last xs]))
         else (true, write_array
                       (write_array st2 (field st this)
                          (removelast (removelast xs)
                           ++ [Array.at_last (removelast xs)]))
                       (field st this)
                       ((removelast (removelast xs)
                         ++ [Array.at_last (removelast xs)])
                        ++ [Array.at_last xs])).
Proof.
  intros xs st1 st2. unfold Unused.swap. rewrite pop_spec. fold xs st1.
  destruct (is_undefined (Array.at_last xs)); [done|].
  rewrite pop_spec.
  assert (E1 : elems st1 this = removelast xs) by apply elems_write_own.
  rewrite E1. change (field st1 this) with (field st this). fold st2.
  assert (E2 : elems st2 this = removelast (removelast xs)).
  { apply (elems_write_own st1). }
  destruct (is_undefined (Array.at_last (removelast xs))).
  - by rewrite push_spec, E2.
  - rewrite (push_spec (Stack.push st2 this _)), (push_spec st2).
    rewrite (elems_write_own st2), E2. reflexivity.
Qed.

Lemma swap_elems st this :
  let xs := elems st this in
  (Unused.swap st this).1
  = negb (is_undefined (Array.at_last xs))
    && negb (is_undefined (Array.at_last (removelast xs)))
  ∧ elems (Unused.swap st this).2 this
    = if is_undefined (Array.at_last xs) then removelast xs
      else if is_undefined (Array.at_last (removelast xs))
           then removelast (removelast xs) ++ [Array.at_last xs]
           else removelast (removelast xs)
                ++ [Array.at_last (removelast xs); Array.at_last xs].
Proof.
  intros xs. rewrite swap_unfold. fold xs.
  destruct (is_undefined (Array.at_last xs)).
  - split; [done|]. apply elems_write_own.
  - destruct (is_undefined (Array.at_last (removelast xs))).
    + split; [done|]. simpl.
      apply (elems_write_own
               (write_array (write_array st (field st this) (removelast xs))
                            (field st this) (removelast (removelast xs)))).
    + split; [done|]. simpl. rewrite <- app_assoc. simpl.
      apply (elems_write_own
               (write_array
                  (write_array (write_array st (field st this) (removelast xs))
                               (field st this) (removelast (removelast xs)))
                  (field st this)
                  (removelast (removelast xs) ++ [Array.at_last (removelast xs)]))).
Qed.

(** X7: [swap] does not exchange anything: it pushes the second item back
    before the first, so when the two top items are not [undefined] it
    returns [true] and the stack holds its items in the order it held them;
    two different top items are never found exchanged. *)
Theorem swap_keeps_order st this xs x2 x1 :
  elems st this = xs ++ [x2; x1] →
  is_undefined x1 = false → is_undefined x2 = false →
  (Unused.swap st this).1 = true
  ∧ elems (Unused.swap st this).2 this = xs ++ [x2; x1]
  ∧ (x1 ≠ x2 → elems (Unused.swap st this).2 this ≠ xs ++ [x1; x2]).
Proof.
  intros E H1 H2.
  destruct (swap_elems st this) as [R C]. rewrite R, C, E.
  change (xs ++ [x2; x1]) with (xs ++ [x2] ++ [x1]).
  rewrite app_assoc, at_last_snoc, removelast_last, at_last_snoc,
    removelast_last, H1, H2.
  split; [done|]. split; [by rewrite <- app_assoc|].
  intros Hne Heq. apply app_inv_head in Heq. congruence.
Qed.

(** X8: on a stack with fewer than two items, none of them [undefined],
    [swap] returns [false] and the stack holds what it held. *)
Theorem swap_short_stack st this :
  length (elems st this) < 2 →
  Forall (λ x, is_undefined x = false) (elems st this) →
  (Unused.swap st this).1 = false
  ∧ elems (Unused.swap st this).2 this = elems st this.
Proof.
  intros L F. destruct (swap_elems st this) as [R C]. rewrite R, C.
  destruct (elems st this) as [|x [|y ys]]; simpl in *; [done| |lia].
  inversion F as [|? ? Hx _]; subst.
  unfold Array.at_last. simpl. by rewrite Hx.
Qed.

(** X9: [swap] takes an [undefined] item for the end of the stack: when the
    top item is [undefined] it is removed, when the item below the top is
    [undefined] that one is removed and the top item stays; [swap] returns
    [false] and the stack is one item shorter. *)
Theorem swap_drops_undefined st this xs :
  (elems st this = xs ++ [Undefined] →
   (Unused.swap st this).1 = false
   ∧ elems (Unused.swap st this).2 this = xs)
  ∧ (∀ x1, elems st this = xs ++ [Undefined; x1] →
           is_undefined x1 = false →
           (Unused.swap st this).1 = false
           ∧ elems (Unused.swap st this).2 this = xs ++ [x1]).
Proof.
  destruct (swap_elems st this) as [R C]. split.
  - intros E. rewrite R, C, E, at_last_snoc, removelast_last. done.
  - intros x1 E H1. rewrite R, C, E.
    change (xs ++ [Undefined; x1]) with (xs ++ [Undefined] ++ [x1]).
    rewrite app_assoc, at_last_snoc, removelast_last, at_last_snoc,
      removelast_last, H1. done.
Qed.
End SwapFacts.

(** ** PushdownAutomaton *)

Section AutomatonMore.
Context {A QA : Type}.
Implicit Types w : World A QA.

(** X10: a new automaton is in the state given, its control stack holds the
    initial stack symbol and nothing else (so that symbol is its head), it
    has no result and no input, it has called nothing yet, and its two
    stacks are new objects on two new arrays. *)
Theorem constructor_postcondition (st : Store A) (s0 : QA)
    (z0 : js A) (t : TransitionFunction A QA A) :
  let w := PushdownAutomaton.constructor st s0 z0 t in
  PushdownAutomaton.getState w = s0
  ∧ stack_contents w = [z0]
  ∧ PushdownAutomaton.getStackHead w = z0
  ∧ PushdownAutomaton.getResult w = None
  ∧ input_contents w = []
  ∧ PushdownAutomaton.getInputHead w = Undefined
  ∧ PushdownAutomaton.getTransitionFunction w = t
  ∧ trace w = []
  ∧ wf w
  ∧ disjoint w
  ∧ objects st !! p_stack w = None ∧ objects st !! p_input w = None
  ∧ arrays st !! field (store w) (p_stack w) = None
  ∧ arrays st !! field (store w) (p_input w) = None.
Proof.
  intros w.
  destruct (constructor_fields st s0 z0 t)
    as (Hq & Hs & Hr & Hi & Ht & _ & Htr).
  destruct (constructor_storage st s0 z0 t) as (As & Ai & Os & Oi & _).
  destruct (constructor_wf st s0 z0 t) as [W D].
  fold w in Hq, Hs, Hr, Hi, Ht, Htr, As, Ai, Os, Oi, W, D.
  split; [done|]. split; [done|]. split.
  { change (Array.at_last (stack_contents w) = z0). by rewrite Hs. }
  split; [done|]. split; [done|]. split.
  { change (Array.at_last (input_contents w) = Undefined). by rewrite Hi. }
  split; [done|]. split; [done|]. split; [exact W|]. split; [exact D|].
  by repeat split.
Qed.

(** X11: every step calls the transition function exactly once and a
    continuation at most once, whatever the configuration: [n] steps add
    [n] queries and at most [n] fed symbols to the calls made before, which
    all stay in place. *)
Theorem steps_query_count n w :
  length (queries (trace (steps n w))) = length (queries (trace w)) + n
  ∧ length (fed (trace (steps n w))) ≤ length (fed (trace w)) + n
  ∧ ∃ tr, trace (steps n w) = trace w ++ tr.
Proof.
  revert w. induction n as [|n IH]; intros w; simpl.
  - split; [lia|]. split; [lia|]. exists []. by rewrite app_nil_r.
  - destruct (IH (PushdownAutomaton.advance w)) as (Hq & Hf & tr & Ht).
    split; [|split].
    + rewrite Hq, advance_trace, queries_app, length_app.
      destruct (action1 w); simpl; lia.
    + etrans; [exact Hf|].
      rewrite advance_trace, fed_app, length_app.
      destruct (action1 w); simpl; lia.
    + rewrite Ht, advance_trace, <- app_assoc. by eexists.
Qed.


(** X13: an ignore decision does not touch the input: the step acts on the
    action the decision carries, no continuation is called and nothing is
    popped; the input stack is the same object, and it holds what it held
    when the action resolves or the control stack is on another array. *)
Theorem advance_ignore_leaves_input w a :
  action1 w = IgnoreInputAction a →
  action2 w = a
  ∧ p_input (PushdownAutomaton.advance w) = p_input w
  ∧ fed (trace (PushdownAutomaton.advance w)) = fed (trace w)
  ∧ store (PushdownAutomaton.decide w).2 = store w
  ∧ (∀ r, a = ResolveAction r → store (PushdownAutomaton.advance w) = store w)
  ∧ (disjoint w →
     input_contents (PushdownAutomaton.advance w) = input_contents w).
Proof.
  intros E.
  assert (A2 : action2 w = a).
  { unfold action2. by rewrite (decide_ignore _ _ E). }
  split; [done|]. split; [apply advance_refs|].
  split; [|split; [|split]].
  - rewrite advance_trace, fed_app, E. simpl. by rewrite app_nil_r.
  - by rewrite decide_store, E.
  - intros r ->. by rewrite advance_store, A2, decide_store, E.
  - intros D. by rewrite (advance_input w D), E.
Qed.

(** X14: a step whose action is a continue action adopts the new state and
    leaves the result field as it is; it runs the stack action on the
    control stack, the same object as before, after the input has been
    popped: the control stack then holds what the action makes of its
    items, whenever the decision ignores the input or the input stack is on
    another array. *)
Theorem advance_continue w act q :
  action2 w = ContinueAction act q →
  let after (xs : list (js A)) :=
    match act with
    | DeleteAction | PopAction _ => removelast xs
    | PushAction x => xs ++ [x]
    | IgnoreAction => xs
    | ClearAction => []
    end in
  p_state (PushdownAutomaton.advance w) = q
  ∧ p_result (PushdownAutomaton.advance w) = p_result w
  ∧ p_stack (PushdownAutomaton.advance w) = p_stack w
  ∧ store (PushdownAutomaton.advance w)
    = (Stack.action (store (PushdownAutomaton.decide w).2) (p_stack w) act).2
  ∧ stack_contents (PushdownAutomaton.advance w)
    = after (stack_contents (PushdownAutomaton.decide w).2)
  ∧ (disjoint w →
     stack_contents (PushdownAutomaton.advance w) = after (stack_contents w))
  ∧ (∀ a, action1 w = IgnoreInputAction a →
     stack_contents (PushdownAutomaton.advance w) = after (stack_contents w)).
Proof.
  intros E after. rewrite advance_state, advance_result, E.
  split; [done|]. split; [done|]. split; [apply advance_refs|].
  split; [by rewrite advance_store, E|].
  assert (S : stack_contents (PushdownAutomaton.advance w)
              = after (stack_contents (PushdownAutomaton.decide w).2)).
  { rewrite advance_stack_after_decide, E. by destruct act. }
  split; [done|]. split.
  - intros D. by rewrite S, decide_stack.
  - intros a Ea. rewrite S. unfold stack_contents.
    destruct (decide_frame w) as (-> & _). by rewrite decide_store, Ea.
Qed.

(** X15: after [input(array)] a step with a pop decision pops the caller's
    array itself: when the control stack is not on that array too, the array
    has lost its last element and nothing else. *)
Theorem advance_pops_callers_array w array continue :
  action1 (PushdownAutomaton.input w array) = PopInputAction continue →
  disjoint (PushdownAutomaton.input w array) →
  read_array (store (PushdownAutomaton.advance
                       (PushdownAutomaton.input w array))) array
  = removelast (read_array (store w) array).
Proof.
  intros E D. set (w1 := PushdownAutomaton.input w array) in *.
  destruct (input_storage w array) as [F R]. fold w1 in F, R.
  assert (P : store (PushdownAutomaton.decide w1).2
              = write_array (store w1) array
                  (removelast (read_array (store w) array))).
  { rewrite decide_store, E.
    change (call (store w1) (p_input w1) CallPop)
      with (Stack.pop (store w1) (p_input w1)).2.
    rewrite pop_spec.
    change ((?x, ?y).2) with y. unfold elems. by rewrite F, R. }
  assert (R' : read_array (store (PushdownAutomaton.decide w1).2) array
               = removelast (read_array (store w) array)).
  { rewrite P. apply read_write_eq. }
  rewrite advance_store. destruct (action2 w1) as [act q|r]; [|done].
  rewrite <- R'. apply call_array_frame.
  - rewrite P. simpl. rewrite lookup_insert_eq. by eexists.
  - rewrite decide_fields. unfold disjoint in D. by rewrite F in D.
Qed.

(** X16: replacing the input stack by a copy of itself takes the caller's
    array out of the automaton: the input holds the same symbols, and what
    the caller does to the array afterwards no longer changes it. *)
Theorem replaceInput_copy_detaches w array :
  is_Some (arrays (store w) !! array) →
  let w1 := PushdownAutomaton.input w array in
  let c := (PushdownAutomaton.copyRemainingInput w1).1 in
  let w2 := PushdownAutomaton.replaceInput
              (PushdownAutomaton.copyRemainingInput w1).2 c in
  input_contents w2 = read_array (store w) array
  ∧ ∀ ys, input_contents (run_op w2 (op_writeArray array ys))
          = input_contents w2.
Proof.
  intros Ha w1 c w2.
  destruct (input_storage w array) as [F R]. fold w1 in F, R.
  assert (V1 : valid (store w1) (p_input w1))
    by exact (proj1 (proj2 (input_objects w array)) Ha).
  destruct (copy_frame (store w1) (p_input w1)) as (Vc & Ec & Fr).
  destruct (Fr _ V1) as (_ & F' & _ & Hne).
  change (elems (store w2) (p_input w2) = elems (store w1) (p_input w1))
    in Ec.
  split.
  - unfold input_contents. rewrite Ec. unfold elems. by rewrite F, R.
  - intros ys. apply elems_write_other.
    change (field (store w2) (p_input w2) ≠ array).
    rewrite <- F, <- F'. exact Hne.
Qed.

(** X17: [reset()] makes new stacks, so references from [rawGetStack()] and
    [rawGetRemainingInput()] taken before the reset no longer lead to the
    stacks of the automaton: whatever is called on them afterwards, the
    control stack and the input stack hold what the reset gave them. *)
Theorem reset_detaches_raw_references w :
  wf w →
  let old_stack := PushdownAutomaton.rawGetStack w in
  let old_input := PushdownAutomaton.rawGetRemainingInput w in
  let w' := PushdownAutomaton.reset w in
  PushdownAutomaton.rawGetStack w' ≠ old_stack
  ∧ PushdownAutomaton.rawGetRemainingInput w' ≠ old_input
  ∧ (∀ old cs, old = old_stack ∨ old = old_input →
       elems (calls (store w') old cs) (p_stack w')
       = [stackSymbol (p_initialState w)]
       ∧ elems (calls (store w') old cs) (p_input w') = []).
Proof.
  intros [Vs Vi] old_stack old_input w'.
  destruct (reset_fields w) as (_ & Hs & _ & Hi & _). fold w' in Hs, Hi.
  destruct (reset_storage w) as (Ns & Ni & Os & Oi & M).
  fold w' in Ns, Ni, Os, Oi, M.
  destruct (reset_wf w) as [[Vs' Vi'] _]. fold w' in Vs', Vi'.
  split; [|split].
  - intros E. destruct Vs as (b & Hb & _).
    unfold PushdownAutomaton.rawGetStack in E. rewrite E in Os.
    unfold old_stack, PushdownAutomaton.rawGetStack in Os. congruence.
  - intros E. destruct Vi as (b & Hb & _).
    unfold PushdownAutomaton.rawGetRemainingInput in E. rewrite E in Oi.
    unfold old_input, PushdownAutomaton.rawGetRemainingInput in Oi. congruence.
  - intros old cs Hold.
    assert (Vo : valid (store w) old) by (by destruct Hold as [-> | ->]).
    destruct (M old Vo) as (_ & Fo & _).
    destruct (valid_field _ _ Vo) as [_ [ys Hy]].
    rewrite <- Hs, <- Hi. split; apply calls_frame; try done.
    + rewrite Fo. intros E. rewrite <- E in Ns. congruence.
    + rewrite Fo. intros E. rewrite <- E in Ni. congruence.
Qed.

(** X18: [appendInputArray(array)] puts the symbols of the array on top of
    the pending input: the input then holds the pending symbols followed by
    those of the array, and the next pop step hands the last element of the
    array to the continuation, ahead of everything that was pending; when
    the control stack is on another array, the input after that step is the
    rest. *)
Theorem appendInputArray_consumed_first w array continue ys y :
  read_array (store w) array = ys ++ [y] →
  action1 (PushdownAutomaton.appendInputArray w array) = PopInputAction continue →
  let w1 := PushdownAutomaton.appendInputArray w array in
  input_contents w1 = input_contents w ++ ys ++ [y]
  ∧ PushdownAutomaton.getInputHead w1 = y
  ∧ action2 w1 = continue y
  ∧ input_contents (PushdownAutomaton.decide w1).2 = input_contents w ++ ys
  ∧ (disjoint w1 →
     input_contents (PushdownAutomaton.advance w1) = input_contents w ++ ys).
Proof.
  intros Hy E w1.
  assert (C : input_contents w1 = input_contents w ++ ys ++ [y]).
  { unfold w1. rewrite <- Hy. apply elems_write_own. }
  assert (H : PushdownAutomaton.getInputHead w1 = y).
  { change (Array.at_last (input_contents w1) = y).
    by rewrite C, app_assoc, at_last_snoc. }
  split; [done|]. split; [done|]. split; [|split].
  - unfold action2. fold w1 in E. by rewrite (decide_pop _ _ E), H.
  - rewrite decide_input. fold w1 in E.
    by rewrite E, C, app_assoc, removelast_last.
  - intros D. rewrite (advance_input w1 D). fold w1 in E.
    by rewrite E, C, app_assoc, removelast_last.
Qed.

(** X19: stepping never replaces the objects or the functions of the
    automaton: after any number of steps the control stack and the input
    stack are the objects they were, so raw references stay live, and the
    transition function and the initial configuration are unchanged. *)
Theorem steps_keep_references n w :
  PushdownAutomaton.rawGetStack (steps n w) = PushdownAutomaton.rawGetStack w
  ∧ PushdownAutomaton.rawGetRemainingInput (steps n w)
    = PushdownAutomaton.rawGetRemainingInput w
  ∧ PushdownAutomaton.getTransitionFunction (steps n w)
    = PushdownAutomaton.getTransitionFunction w
  ∧ p_initialState (steps n w) = p_initialState w.
Proof.
  revert w. induction n as [|n IH]; intros w; simpl; [done|].
  destruct (IH (PushdownAutomaton.advance w)) as (-> & -> & -> & ->).
  destruct (advance_refs w) as (Hs & Hi).
  unfold PushdownAutomaton.rawGetStack, PushdownAutomaton.rawGetRemainingInput,
    PushdownAutomaton.getTransitionFunction.
  by rewrite Hs, Hi, advance_transition, advance_initialState.
Qed.

Lemma advance_ignore_resolve w r :
  action1 w = IgnoreInputAction (ResolveAction r) →
  PushdownAutomaton.advance w
  = set_result (emit w (Query (p_state w) (PushdownAutomaton.getStackHead w)))
               (Some r).
Proof.
  intros E. unfold PushdownAutomaton.advance.
  by rewrite (decide_ignore _ _ E).
Qed.

(** X20: a resolution reached without reading input is stable: when the
    decision in a configuration is to ignore the input and resolve, every
    further step resolves to the same result, and state, control stack and
    input stay as they are. *)
Theorem resolve_without_reading_is_stable w r n :
  action1 w = IgnoreInputAction (ResolveAction r) →
  p_result (steps (S n) w) = Some r
  ∧ p_state (steps n w) = p_state w
  ∧ stack_contents (steps n w) = stack_contents w
  ∧ input_contents (steps n w) = input_contents w.
Proof.
  revert w. induction n as [|n IH]; intros w E.
  - simpl. by rewrite (advance_ignore_resolve _ _ E).
  - assert (E' : action1 (PushdownAutomaton.advance w)
                 = IgnoreInputAction (ResolveAction r)).
    { rewrite (advance_ignore_resolve _ _ E). exact E. }
    destruct (IH _ E') as (Hr & Hq & Hs & Hi).
    change (steps (S (S n)) w) with (steps (S n) (PushdownAutomaton.advance w)).
    change (steps (S n) w) with (steps n (PushdownAutomaton.advance w)).
    rewrite Hr, Hq, Hs, Hi.
    by rewrite (advance_ignore_resolve _ _ E).
Qed.
End AutomatonMore.

(** ** The draft *)

Section DraftFacts.
Context {A QA : Type}.
Implicit Types w : Draft.World A QA.

Lemma draft_head w :
  Stack.head (Draft.store w) (Draft.p_stack w)
  = Array.at_last (Draft.stack_contents w).
Proof. reflexivity. Qed.

Lemma draft_advance_accept w :
  is_undefined (Array.at_last (Draft.stack_contents w)) = true →
  Draft.advance w = Draft.set_result w (Some accept).
Proof.
  intros H. unfold Draft.advance. by rewrite draft_head, H.
Qed.

(** X21: the draft accepts by itself: when the control stack is empty, or
    has [undefined] on top, a step sets the result to accept without calling
    the transition function, and changes nothing else; every later step does
    the same. *)
Theorem draft_accepts_on_empty_stack w :
  Draft.stack_contents w = []
  ∨ (∃ xs, Draft.stack_contents w = xs ++ [Undefined]) →
  Draft.advance w = Draft.set_result w (Some accept)
  ∧ ∀ n, Draft.check (Draft.steps (S n) w) = Some accept
         ∧ Draft.trace (Draft.steps (S n) w) = Draft.trace w
         ∧ Draft.stack_contents (Draft.steps (S n) w) = Draft.stack_contents w
         ∧ Draft.input_contents (Draft.steps (S n) w) = Draft.input_contents w
         ∧ Draft.p_state (Draft.steps (S n) w) = Draft.p_state w.
Proof.
  intros H.
  assert (U : is_undefined (Array.at_last (Draft.stack_contents w)) = true).
  { destruct H as [->|[xs ->]]; [done|]. by rewrite at_last_snoc. }
  split; [by apply draft_advance_accept|].
  clear H. intros n. revert w U. induction n as [|n IH]; intros w U.
  - simpl. by rewrite (draft_advance_accept w U).
  - change (Draft.steps (S (S n)) w)
      with (Draft.steps (S n) (Draft.advance w)).
    rewrite (draft_advance_accept w U).
    destruct (IH (Draft.set_result w (Some accept)) U) as (-> & -> & -> & -> & ->).
    done.
Qed.

(** X22: the draft rejects by itself: when the head of the control stack is
    a symbol, the decision is a read and the input is exhausted, the step
    sets the result to reject; the continuation is not called and the
    control stack, the state and the (empty) input are as before. *)
Theorem draft_rejects_on_exhausted_input w continue :
  is_undefined (Array.at_last (Draft.stack_contents w)) = false →
  Draft.p_transition w (Draft.p_state w)
    (Array.at_last (Draft.stack_contents w)) = Draft.PopInputAction continue →
  Draft.input_contents w = [] →
  Draft.check (Draft.advance w) = Some reject
  ∧ queries (Draft.trace (Draft.advance w))
    = queries (Draft.trace w)
      ++ [(Draft.p_state w, Array.at_last (Draft.stack_contents w))]
  ∧ fed (Draft.trace (Draft.advance w)) = fed (Draft.trace w)
  ∧ Draft.stack_contents (Draft.advance w) = Draft.stack_contents w
  ∧ Draft.input_contents (Draft.advance w) = []
  ∧ Draft.p_state (Draft.advance w) = Draft.p_state w.
Proof.
  intros U E Hi.
  assert (P : Stack.pop (Draft.store w) (Draft.p_input w)
              = (Undefined,
                 write_array (Draft.store w)
                   (field (Draft.store w) (Draft.p_input w)) [])).
  { rewrite pop_spec. fold (Draft.input_contents w). by rewrite Hi. }
  assert (D : field (Draft.store w) (Draft.p_stack w)
              ≠ field (Draft.store w) (Draft.p_input w)).
  { intros F.
    assert (C : Draft.stack_contents w = Draft.input_contents w).
    { unfold Draft.stack_contents, Draft.input_contents, elems. by rewrite F. }
    rewrite C, Hi in U. done. }
  assert (A2 : Draft.advance w
              = Draft.set_result
                  (Draft.set_store
                     (Draft.emit w (Query (Draft.p_state w)
                                      (Array.at_last (Draft.stack_contents w))))
                     (write_array (Draft.store w)
                        (field (Draft.store w) (Draft.p_input w)) []))
                  (Some reject)).
  { set (e := Query (Draft.p_state w) (Array.at_last (Draft.stack_contents w))).
    assert (P' : Stack.pop (Draft.store (Draft.emit w e))
                           (Draft.p_input (Draft.emit w e))
                 = (Undefined,
                    write_array (Draft.store w)
                      (field (Draft.store w) (Draft.p_input w)) []))
      by exact P.
    unfold Draft.advance. rewrite draft_head, U, E.
    cbv beta iota zeta. fold e. by rewrite P'. }
  rewrite A2. simpl. repeat split; try done.
  - by rewrite queries_app.
  - rewrite fed_app. simpl. by rewrite app_nil_r.
  - apply elems_write_other. exact D.
  - apply elems_write_own.
Qed.

Lemma draft_advance_state w :
  Draft.p_state (Draft.advance w) = Draft.p_state w.
Proof.
  unfold Draft.advance.
  destruct (is_undefined (Stack.head (Draft.store w) (Draft.p_stack w)));
    [done|].
  destruct (Draft.p_transition w (Draft.p_state w)
              (Stack.head (Draft.store w) (Draft.p_stack w))) as [k|a];
    [|done].
  simpl.
  by destruct (is_undefined
                 (Array.at_last
                    (read_array (Draft.store w)
                       (field (Draft.store w) (Draft.p_input w))))).
Qed.

(** X23: the draft never changes its state: [advance] does not use the
    [newState] of the action, so after any number of steps the state is the
    one the automaton had. *)
Theorem draft_state_never_changes n w :
  Draft.p_state (Draft.steps n w) = Draft.p_state w.
Proof.
  revert w. induction n as [|n IH]; intros w; [done|].
  simpl. by rewrite IH, draft_advance_state.
Qed.
End DraftFacts.

(** ** Reading the input *)

Section ReadingMore.
Context {A QA : Type}.
Implicit Types w : World A QA.

Lemma take_app_replicate {B} (n m : nat) (l : list B) (x : B) :
  n ≤ m → take n (l ++ replicate m x) = take n (l ++ replicate n x).
Proof.
  revert l m. induction n as [|n IH]; intros l m Hm; [done|].
  destruct m as [|m]; [lia|].
  destruct l as [|a l].
  - simpl. f_equal. apply (IH [] m). lia.
  - change (a :: take n (l ++ replicate (S m) x)
            = a :: take n (l ++ replicate (S n) x)).
    f_equal. rewrite (IH l (S m)) by lia. symmetry. apply (IH l (S n)). lia.
Qed.

(** A step with a pop decision keeps the two stacks on different arrays. *)
Lemma advance_pop_disjoint w continue :
  action1 w = PopInputAction continue →
  disjoint w → disjoint (PushdownAutomaton.advance w).
Proof.
  intros E D. unfold disjoint.
  destruct (advance_refs w) as [-> ->]. rewrite advance_store.
  set (st' := store (PushdownAutomaton.decide w).2).
  assert (P : st' = write_array (store w) (field (store w) (p_input w))
                      (removelast (input_contents w))).
  { unfold st'. by rewrite decide_store, E. }
  assert (D' : field st' (p_stack w) ≠ field st' (p_input w)).
  { unfold st'. by rewrite !decide_fields. }
  destruct (action2 w) as [act q|r]; [|done].
  destruct (call_elems_other st' (p_stack w) (CallAction act) (p_input w) D')
    as [-> _].
  apply (call_array_frame st' (p_stack w) (CallAction act)).
  - rewrite P. simpl. rewrite lookup_insert. case_decide; [by eexists|].
    unfold field in *. simpl in *. congruence.
  - exact D'.
Qed.

Lemma steps_fed n w :
  always_pops (p_transition w) →
  disjoint w →
  fed (trace (steps n w))
  = fed (trace w) ++ take n (rev (input_contents w) ++ replicate n Undefined).
Proof.
  revert w. induction n as [|n IH]; intros w H D; simpl.
  - by rewrite app_nil_r.
  - assert (H' : always_pops (p_transition (PushdownAutomaton.advance w)))
      by (by rewrite advance_transition).
    destruct (H (p_state w) (PushdownAutomaton.getStackHead w)) as [k E].
    fold (action1 w) in E.
    rewrite (IH _ H' (advance_pop_disjoint w k E D)).
    rewrite advance_trace, (advance_input w D), fed_app.
    rewrite E. simpl. rewrite <- app_assoc. f_equal.
    change (PushdownAutomaton.getInputHead w)
      with (Array.at_last (input_contents w)).
    destruct (snoc_cases (input_contents w)) as [->|(ys & y & ->)].
    + done.
    + rewrite at_last_snoc, removelast_last, rev_app_distr.
      change (y :: take n (rev ys ++ replicate n Undefined)
              = y :: take n (rev ys ++ replicate (S n) Undefined)).
      f_equal. symmetry. apply take_app_replicate. lia.
Qed.

(** X24: the input array is read backwards: under a transition function
    that pops in every step, when the control stack is not on the array
    given to [input], the first [n] steps after [input(array)] feed the
    continuations the elements of the array from the last to the first, and
    [undefined] from then on. *)
Theorem input_is_read_backwards w array n :
  always_pops (p_transition w) →
  disjoint (PushdownAutomaton.input w array) →
  fed (trace (steps n (PushdownAutomaton.input w array)))
  = fed (trace w)
    ++ take n (rev (read_array (store w) array) ++ replicate n Undefined).
Proof.
  intros H D.
  destruct (input_frame w array) as (_ & _ & _ & Ht & Htr & _).
  rewrite steps_fed by (done || by rewrite Ht).
  by rewrite Htr, input_input_contents.
Qed.

(** X25: [input(array)] replaces the input stack and nothing else, also in
    the middle of a run: state, control stack object, result and transition
    function are as before, nothing is called, no array changes its
    contents, and the input stack is a new object on the array; every Stack
    that was there holds what it held, the control stack among them. *)
Theorem input_replaces_input_only w array :
  let w' := PushdownAutomaton.input w array in
  input_contents w' = read_array (store w) array
  ∧ PushdownAutomaton.getInputHead w'
    = Array.at_last (read_array (store w) array)
  ∧ p_state w' = p_state w
  ∧ p_stack w' = p_stack w
  ∧ p_result w' = p_result w
  ∧ p_transition w' = p_transition w
  ∧ trace w' = trace w
  ∧ (∀ a, read_array (store w') a = read_array (store w) a)
  ∧ objects (store w) !! p_input w' = None
  ∧ (∀ o, valid (store w) o →
          field (store w') o = field (store w) o
          ∧ elems (store w') o = elems (store w) o)
  ∧ (valid (store w) (p_stack w) → stack_contents w' = stack_contents w).
Proof.
  intros w'.
  destruct (input_frame w array) as (Hp & Hq & Hr & Ht & Htr & _).
  destruct (input_storage w array) as [F R].
  destruct (input_objects w array) as (N & _ & M).
  assert (C : input_contents w' = read_array (store w) array)
    by apply input_input_contents.
  split; [done|]. split.
  { change (Array.at_last (input_contents w')
            = Array.at_last (read_array (store w) array)).
    by rewrite C. }
  split; [done|]. split; [done|]. split; [done|]. split; [done|].
  split; [done|]. split; [done|]. split; [done|]. split.
  - intros o Vo. by destruct (M o Vo) as (_ & ? & ?).
  - intros Vs. unfold stack_contents, w'. rewrite Hp.
    by destruct (M _ Vs) as (_ & _ & ?).
Qed.
End ReadingMore.

(** ** The two stacks on one array *)

(** When the control stack is the input stack, a step that pops and pushes 9
    turns [[1, 2]] into [[1, 9]], for both. *)
Lemma shared_object_pop_push :
  stack_contents MoreSamples.shared_marker = [Sym 1; Sym 2]
  ∧ p_stack MoreSamples.shared_marker = p_input MoreSamples.shared_marker
  ∧ stack_contents (PushdownAutomaton.advance MoreSamples.shared_marker)
    = [Sym 1; Sym 9]
  ∧ input_contents (PushdownAutomaton.advance MoreSamples.shared_marker)
    = [Sym 1; Sym 9].
Proof. vm_compute. done. Qed.

(** There a step that ignores the input and pushes 9 lengthens the input. *)
Lemma shared_object_ignore_push :
  input_contents MoreSamples.shared_filler = [Sym 1; Sym 2]
  ∧ input_contents (PushdownAutomaton.advance MoreSamples.shared_filler)
    = [Sym 1; Sym 2; Sym 9].
Proof. vm_compute. done. Qed.

(** There a pop on exhausted input followed by a push leaves the input
    holding the pushed item. *)
Lemma shared_object_empty_pop_push :
  input_contents MoreSamples.shared_empty = []
  ∧ fed (trace (PushdownAutomaton.advance MoreSamples.shared_empty))
    = [Undefined]
  ∧ input_contents (PushdownAutomaton.advance MoreSamples.shared_empty)
    = [Sym 9].
Proof. vm_compute. done. Qed.

(** Two different Stack objects on one array behave the same way: a step that
    pops and pushes 9 turns [[1, 2, 3]] into [[1, 2, 9]], for both and for the
    caller. *)
Lemma shared_array_pop_push :
  p_stack MoreSamples.shared_by_two ≠ p_input MoreSamples.shared_by_two
  ∧ ¬ disjoint MoreSamples.shared_by_two
  ∧ stack_contents MoreSamples.shared_by_two = [Sym 1; Sym 2; Sym 3]
  ∧ stack_contents (PushdownAutomaton.advance MoreSamples.shared_by_two)
    = [Sym 1; Sym 2; Sym 9]
  ∧ input_contents (PushdownAutomaton.advance MoreSamples.shared_by_two)
    = [Sym 1; Sym 2; Sym 9]
  ∧ read_array (store (PushdownAutomaton.advance MoreSamples.shared_by_two))
      MoreSamples.marker_array = [Sym 1; Sym 2; Sym 9].
Proof.
  split; [vm_compute; discriminate|].
  split; [intros D; apply D; vm_compute; reflexivity|].
  vm_compute. done.
Qed.

(** ** The further properties at sample inputs *)

Lemma empty_stack_exhaustion_witness :
  Stack.head MoreSamples.no_numbers.2 MoreSamples.no_numbers.1 = Undefined.
Proof.
  apply (empty_stack_exhaustion MoreSamples.no_numbers.2 MoreSamples.no_numbers.1).
  vm_compute. reflexivity.
Defined.

Lemma appendArray_pushes_in_order_witness :
  let '(stack, st) := MoreSamples.numbers in
  elems (Stack.appendArray st stack (field st stack)) stack
  = [Sym 1; Sym 2; Sym 3; Sym 1; Sym 2; Sym 3].
Proof.
  destruct (appendArray_pushes_in_order MoreSamples.numbers.2
              MoreSamples.numbers.1
              (field MoreSamples.numbers.2 MoreSamples.numbers.1))
    as (_ & _ & _ & H).
  exact (H eq_refl).
Defined.

Lemma clear_leaves_old_array_witness :
  let '(stack, st) := MoreSamples.numbers in
  read_array (Stack.clear st stack) (field st stack) = [Sym 1; Sym 2; Sym 3].
Proof.
  destruct (clear_leaves_old_array MoreSamples.numbers.2 MoreSamples.numbers.1)
    as (_ & H & _).
  - vm_compute. eexists. reflexivity.
  - exact H.
Defined.

Lemma action_pop_never_nullish_witness :
  nullish (Stack.action MoreSamples.no_numbers.2 MoreSamples.no_numbers.1
             (PopAction (Sym 0))).1 = false.
Proof.
  apply (action_pop_never_nullish MoreSamples.no_numbers.2
           MoreSamples.no_numbers.1 (Sym 0)).
  reflexivity.
Defined.

Lemma fromArray_shares_array_witness :
  let st := MoreSamples.shared_store in
  let array := MoreSamples.shared_array in
  let s1 := (Stack.fromArray st array).1 in
  let st1 := (Stack.fromArray st array).2 in
  let s2 := (Stack.fromArray st1 array).1 in
  let st2 := (Stack.fromArray st1 array).2 in
  elems (call st2 s1 (CallPush (Sym 3))) s2 = [Sym 1; Sym 2; Sym 3].
Proof.
  intros st array s1 st1 s2 st2.
  destruct (fromArray_shares_array st array) as (_ & _ & _ & H & _).
  fold s1 st1 s2 st2 in H.
  rewrite (H (CallPush (Sym 3))) by discriminate.
  vm_compute. reflexivity.
Defined.

Lemma swap_keeps_order_witness :
  let '(stack, st) := MoreSamples.numbers in
  (Unused.swap st stack).1 = true
  ∧ elems (Unused.swap st stack).2 stack = [Sym 1; Sym 2; Sym 3].
Proof.
  destruct (swap_keeps_order MoreSamples.numbers.2 MoreSamples.numbers.1
              [Sym 1] (Sym 2) (Sym 3)) as (H1 & H2 & _).
  - vm_compute. reflexivity.
  - reflexivity.
  - reflexivity.
  - split; [exact H1 | exact H2].
Defined.

Lemma swap_short_stack_witness :
  (Unused.swap MoreSamples.no_numbers.2 MoreSamples.no_numbers.1).1 = false.
Proof.
  apply (swap_short_stack MoreSamples.no_numbers.2 MoreSamples.no_numbers.1).
  - vm_compute. lia.
  - vm_compute. constructor.
Defined.

Lemma swap_drops_undefined_witness :
  elems (Unused.swap MoreSamples.undefined_on_top.2
                     MoreSamples.undefined_on_top.1).2
        MoreSamples.undefined_on_top.1 = [Sym 1]
  ∧ elems (Unused.swap MoreSamples.undefined_below_top.2
                       MoreSamples.undefined_below_top.1).2
          MoreSamples.undefined_below_top.1 = [Sym 1].
Proof.
  split.
  - apply (proj1 (swap_drops_undefined MoreSamples.undefined_on_top.2
                    MoreSamples.undefined_on_top.1 [Sym 1])).
    vm_compute. reflexivity.
  - apply (proj2 (swap_drops_undefined MoreSamples.undefined_below_top.2
                    MoreSamples.undefined_below_top.1 []) (Sym 1)).
    + vm_compute. reflexivity.
    + reflexivity.
Defined.


Lemma advance_ignore_leaves_input_witness :
  input_contents (PushdownAutomaton.advance Samples.drain_world)
  = input_contents Samples.drain_world.
Proof.
  destruct (advance_ignore_leaves_input Samples.drain_world _ eq_refl)
    as (_ & _ & _ & _ & _ & H).
  apply H. vm_compute. discriminate.
Defined.

Lemma advance_continue_witness :
  p_state (PushdownAutomaton.advance Samples.drain_world) = 1
  ∧ stack_contents (PushdownAutomaton.advance Samples.drain_world) = [].
Proof.
  destruct (advance_continue Samples.drain_world DeleteAction 1)
    as (H1 & _ & _ & _ & _ & H2 & _).
  - vm_compute. reflexivity.
  - split; [exact H1|]. rewrite H2; [|vm_compute; discriminate].
    vm_compute. reflexivity.
Defined.

Lemma advance_pops_callers_array_witness :
  read_array (store (PushdownAutomaton.advance Samples.reader_world))
             Samples.reader_array = [Sym false].
Proof.
  pose proof (advance_pops_callers_array
    (run_op Samples.reader_new (op_newArray Samples.reader_symbols))
    Samples.reader_array _ eq_refl) as H.
  etrans; [apply H; vm_compute; discriminate|]. vm_compute. reflexivity.
Defined.

Lemma replaceInput_copy_detaches_witness :
  let w2 := PushdownAutomaton.replaceInput
              (PushdownAutomaton.copyRemainingInput Samples.reader_world).2
              (PushdownAutomaton.copyRemainingInput Samples.reader_world).1 in
  input_contents (run_op w2 (op_writeArray Samples.reader_array []))
  = [Sym false; Sym true].
Proof.
  intros w2.
  destruct (replaceInput_copy_detaches
    (run_op Samples.reader_new (op_newArray Samples.reader_symbols))
    Samples.reader_array) as [H1 H2].
  - vm_compute. eexists. reflexivity.
  - etrans; [exact (H2 [])|]. etrans; [exact H1|]. vm_compute. reflexivity.
Defined.

Lemma reset_detaches_raw_references_witness :
  elems (calls (store (PushdownAutomaton.reset Samples.reader_world))
               (PushdownAutomaton.rawGetStack Samples.reader_world)
               [CallClear])
        (p_stack (PushdownAutomaton.reset Samples.reader_world))
  = [Sym false].
Proof.
  destruct (reset_detaches_raw_references Samples.reader_world reader_world_wf)
    as (_ & _ & H).
  exact (proj1 (H _ [CallClear] (or_introl eq_refl))).
Defined.

Lemma appendInputArray_consumed_first_witness :
  input_contents
    (PushdownAutomaton.appendInputArray Samples.reader_world Samples.reader_array)
  = [Sym false; Sym true; Sym false; Sym true]
  ∧ input_contents
      (PushdownAutomaton.advance
         (PushdownAutomaton.appendInputArray Samples.reader_world
                                             Samples.reader_array))
    = [Sym false; Sym true; Sym false].
Proof.
  destruct (appendInputArray_consumed_first Samples.reader_world
              Samples.reader_array
              (λ inputSymbol,
                 match inputSymbol with
                 | Sym true => ResolveAction accept
                 | _ => ResolveAction reject
                 end)
              [Sym false] (Sym true)) as (H & _ & _ & _ & H').
  - vm_compute. reflexivity.
  - reflexivity.
  - split.
    + etrans; [exact H|]. vm_compute. reflexivity.
    + etrans; [apply H'; vm_compute; discriminate|]. vm_compute. reflexivity.
Defined.

Lemma resolve_without_reading_is_stable_witness :
  p_result (steps 5 (steps 3 Samples.drain_world)) = Some accept.
Proof.
  apply (resolve_without_reading_is_stable (steps 3 Samples.drain_world) accept 4).
  vm_compute. reflexivity.
Defined.

Lemma draft_accepts_on_empty_stack_witness :
  Draft.check (Draft.steps 2 (Draft.advance MoreSamples.draft_deleter_world))
  = Some accept.
Proof.
  destruct (draft_accepts_on_empty_stack
              (Draft.advance MoreSamples.draft_deleter_world)) as [_ H].
  - left. vm_compute. reflexivity.
  - apply (H 1).
Defined.

Lemma draft_rejects_on_exhausted_input_witness :
  Draft.check (Draft.advance MoreSamples.draft_reader_world) = Some reject.
Proof.
  apply (draft_rejects_on_exhausted_input MoreSamples.draft_reader_world
           (λ inputSymbol, Draft.mkAction (0 + 1) (PushAction inputSymbol))).
  - vm_compute. reflexivity.
  - vm_compute. reflexivity.
  - vm_compute. reflexivity.
Defined.

Lemma pusher_always_pops : always_pops Samples.pusher.
Proof. intros q s. eexists. reflexivity. Qed.

Lemma input_is_read_backwards_witness :
  fed (trace (steps 4 MoreSamples.pusher_world))
  = [Sym 3; Sym 2; Sym 1; Undefined].
Proof.
  apply (input_is_read_backwards
           (run_op MoreSamples.pusher_new (op_newArray [Sym 1; Sym 2; Sym 3]))
           MoreSamples.pusher_array 4 pusher_always_pops).
  vm_compute. discriminate.
Defined.

Lemma input_replaces_input_only_witness :
  stack_contents Samples.reader_world = [Sym false].
Proof.
  destruct (input_replaces_input_only
    (run_op Samples.reader_new (op_newArray Samples.reader_symbols))
    Samples.reader_array) as (_ & _ & _ & _ & _ & _ & _ & _ & _ & _ & H).
  etrans; [apply H|vm_compute; reflexivity].
  vm_compute. eexists. split; [reflexivity|]. eexists. reflexivity.
Defined.
